(** * ddsp.processors: Processor, ProcessorGroup, Add and Mix

    A shallow embedding of [ddsp/processors.py].  Python dictionaries are
    objects of a store, so that the in-place update of the namespace handed
    to [ProcessorGroup.get_controls] and the identity of the returned object
    can be stated; tensors are immutable values of a shape and row-major
    data; exceptions are an explicit result next to the store. *)

From Stdlib Require Import Ascii Reals Lra.
From stdpp Require Import gmap strings list fin_maps.

#[local] Set Warnings "-clear-no-such-hyp".

Open Scope string_scope.

(** ** Exceptions and results *)

(** The Python exceptions the module can raise.  The spec's taxonomy names
    them by role: [NotImplementedError] is its NotImplemented, [ValueError]
    its InvalidArgument, [KeyError] its MissingInput, and the [IndexError] of
    [self.processors[-1]] on an empty list its ConfigurationError. *)
Inductive exn : Set :=
  | NotImplementedError
  | ValueError
  | KeyError
  | IndexError
  | TypeError
  | AttributeError
  | InvalidArgumentError.

Inductive result (A : Type) : Type :=
  | Ok (a : A)
  | Raise (e : exn).
Arguments Ok {A} a.
Arguments Raise {A} e.

Definition result_bind {A B : Type} (f : A -> result B) (r : result A) : result B :=
  match r with
  | Ok a => f a
  | Raise e => Raise e
  end.

#[global] Instance result_ret : MRet result := fun A a => Ok a.
#[global] Instance result_mbind : MBind result := fun A B f r => result_bind f r.

(** ** Tensors *)

(** A tensor is its static shape and its elements in row-major order.  The
    elements are real numbers: the arithmetic of [tf.Tensor] is taken exact. *)
Record tensor : Type := { shape : list nat; data : list R }.

(** Number of elements of a shape. *)
Definition numel (s : list nat) : nat := foldr Nat.mul 1%nat s.

(** A tensor holds as many elements as its shape says. *)
Definition well_shaped (t : tensor) : Prop := length (data t) = numel (shape t).

(** [t.shape[i]]: out of range raises IndexError. *)
Definition shape_at (t : tensor) (i : nat) : result nat :=
  match shape t !! i with
  | Some n => Ok n
  | None => Raise IndexError
  end.

(** Unary elementwise operations ([tf.abs], [tf.sqrt], [tf.nn.sigmoid], and
    the operations with a Python float, which is broadcast to every element). *)
Definition tmap (f : R -> R) (t : tensor) : tensor :=
  {| shape := shape t; data := f <$> data t |}.

(** [tf.fill(s, x)]; [tf.zeros] and [tf.ones] are its instances at 0 and 1. *)
Definition full (s : list nat) (x : R) : tensor :=
  {| shape := s; data := replicate (numel s) x |}.

(** *** Broadcasting of binary elementwise operations *)

(** One axis: equal lengths, or one of them is 1. *)
Definition broadcast_dim (x y : nat) : option nat :=
  if (x =? y)%nat then Some x
  else if (x =? 1)%nat then Some y
  else if (y =? 1)%nat then Some x
  else None.

(** Shapes are aligned at their last axis: this works on reversed shapes. *)
Fixpoint broadcast_rev (a b : list nat) : option (list nat) :=
  match a, b with
  | [], _ => Some b
  | _, [] => Some a
  | x :: a', y :: b' =>
      match broadcast_dim x y, broadcast_rev a' b' with
      | Some d, Some r => Some (d :: r)
      | _, _ => None
      end
  end.

Definition broadcast_shape (s1 s2 : list nat) : option (list nat) :=
  reverse <$> broadcast_rev (reverse s1) (reverse s2).

(** A shape padded with leading 1s up to rank [r]. *)
Definition pad_shape (r : nat) (s : list nat) : list nat :=
  replicate (r - length s) 1%nat ++ s.

(** The first [k] blocks of [n] elements of [d]. *)
Fixpoint chunks (n k : nat) (d : list R) : list (list R) :=
  match k with
  | O => []
  | S k' => take n d :: chunks n k' (drop n d)
  end.

(** The data of a tensor of shape [src] seen at shape [tgt] (same rank, each
    axis of [src] either equal to that of [tgt] or 1, then repeated). *)
Fixpoint broadcast_to (src tgt : list nat) (d : list R) : list R :=
  match src, tgt with
  | s :: src', t :: tgt' =>
      let rows := map (broadcast_to src' tgt') (chunks (numel src') s d) in
      if (s =? t)%nat then concat rows else concat (replicate t (concat rows))
  | _, _ => d
  end.

(** A binary elementwise operation of TensorFlow; shapes that cannot be
    broadcast together raise [tf.errors.InvalidArgumentError]. *)
Definition tzip (f : R -> R -> R) (a b : tensor) : result tensor :=
  match broadcast_shape (shape a) (shape b) with
  | Some s =>
      let r := length s in
      Ok {| shape := s;
            data := zip_with f (broadcast_to (pad_shape r (shape a)) s (data a))
                               (broadcast_to (pad_shape r (shape b)) s (data b)) |}
  | None => Raise InvalidArgumentError
  end.

Definition tadd : tensor -> tensor -> result tensor := tzip Rplus.
Definition tmul : tensor -> tensor -> result tensor := tzip Rmult.

(** ** The store of dictionaries *)

(** Python values that travel through a namespace: an immutable tensor, or a
    reference to a dictionary object of the store.  A location outside the
    store stands for an object that is not a dictionary. *)
Abbreviation loc := nat.

Inductive value : Type :=
  | Tensor (t : tensor)
  | Ref (l : loc).

Abbreviation dict := (gmap string value).
Abbreviation heap := (list dict).

(** Computations that read and update the store and may raise; the store
    is kept when an exception is raised, as Python keeps what was mutated. *)
Definition M (A : Type) : Type := heap -> result A * heap.

#[global] Instance M_ret : MRet M := fun A a h => (Ok a, h).
#[global] Instance M_bind : MBind M := fun A B f m h =>
  match m h with
  | (Ok a, h') => f a h'
  | (Raise e, h') => (Raise e, h')
  end.

Definition lift {A : Type} (r : result A) : M A := fun h => (r, h).

(** A dictionary display [{...}]: a new object. *)
Definition new_dict (d : dict) : M loc := fun h => (Ok (length h), (h ++ [d])%list).

(** [v[k]]. *)
Definition getitem (v : value) (k : string) : M value := fun h =>
  match v with
  | Ref l =>
      match h !! l with
      | Some d =>
          match d !! k with
          | Some x => (Ok x, h)
          | None => (Raise KeyError, h)
          end
      | None => (Raise TypeError, h)
      end
  | Tensor _ => (Raise TypeError, h)
  end.

(** [d[k] = v] on the object at [l]. *)
Definition setitem (l : loc) (k : string) (v : value) : M unit := fun h =>
  match h !! l with
  | Some d => (Ok (), <[l := <[k := v]> d]> h)
  | None => (Raise TypeError, h)
  end.

(** [for x in xs: body(x)]. *)
Fixpoint for_each {A : Type} (body : A -> M unit) (xs : list A) : M unit :=
  match xs with
  | [] => mret ()
  | x :: xs' => _ ← body x; for_each body xs'
  end.

(** [[f(x) for x in xs]]. *)
Fixpoint comprehension {A B : Type} (f : A -> M B) (xs : list A) : M (list B) :=
  match xs with
  | [] => mret []
  | x :: xs' => y ← f x; ys ← comprehension f xs'; mret (y :: ys)
  end.

(** ** ddsp.core, as far as this module calls it *)

Module core.

(** Modelled from the spec: the segments of a delimited key path, as
    [str.split(sep)] gives them for a one-character separator. *)
Fixpoint split (sep : ascii) (s : string) : list string :=
  match s with
  | EmptyString => [EmptyString]
  | String c s' =>
      if Ascii.eqb c sep then EmptyString :: split sep s'
      else match split sep s' with
           | seg :: segs => String c seg :: segs
           | [] => [String c EmptyString]
           end
  end.

(** Modelled from the spec: the descent from [v], one key per level of
    nesting; a level that is no dictionary or lacks the key is the spec's
    MissingInput, rendered as [KeyError]. *)
Fixpoint descend (h : heap) (v : value) (keys : list string) : result value :=
  match keys with
  | [] => Ok v
  | k :: keys' =>
      match v with
      | Ref l =>
          match h !! l ≫= (.!! k) with
          | Some v' => descend h v' keys'
          | None => Raise KeyError
          end
      | Tensor _ => Raise KeyError
      end
  end.

(** Modelled from the spec: [core.nested_lookup] is not part of the excerpt.
    A key is a slash-delimited path, as in "synth_additive/controls/f0_hz"
    for [{"synth_additive": {"controls": {"f0_hz": value}}}]; every segment
    indexes one level of nesting and must match an existing key exactly; a
    missing intermediate level or a missing terminal key fails with the
    spec's MissingInput, rendered as [KeyError]. *)
Definition nested_lookup (nested_key : string) (nested_dict : loc) : M value :=
  fun h => (descend h (Ref nested_dict) (split "/"%char nested_key), h).

End core.

(** ** Processor *)

Module Processor.

(** A processor object: its Keras layer name and the two phases a subclass
    overrides.  The phases are functions of their arguments alone; a wrong
    number of positional arguments or wrong keywords raise TypeError. *)
Record t : Type := {
  name : string;
  get_controls : list tensor -> result (gmap string tensor);
  get_signal : gmap string tensor -> result tensor
}.

(** [Processor.__init__]: an object of the base class, whose two phases
    raise NotImplementedError. *)
Definition __init__ (name : string) : t :=
  {| name := name;
     get_controls := fun _ => Raise NotImplementedError;
     get_signal := fun _ => Raise NotImplementedError |}.

(** [Processor.call]: controls, then signal. *)
Definition call (self : t) (args : list tensor) : result tensor :=
  controls ← get_controls self args;
  signal ← get_signal self controls;
  mret signal.

End Processor.

Abbreviation Node := (Processor.t * list string)%type.
Abbreviation DAG := (list Node).

(** ** ProcessorGroup *)

Module ProcessorGroup.

Record t : Type := {
  dag : DAG;
  name : string;
  processors : list Processor.t
}.

(** [ProcessorGroup.__init__]: the name is 'processor_group' unless given;
    the processors are collected from the nodes. *)
Definition __init__ (dag : DAG) (name : string) : t :=
  {| dag := dag; name := name; processors := (λ node, node.1) <$> dag |}.

(** [processor.build([tensor.shape for tensor in inputs])] reads [.shape] of
    every input, and a dictionary has none.  The code does so under
    [if not processor.built], on the first run of a processor object; this
    is the run that is modelled, every processor being as its constructor
    left it.  A processor that is built already is handed its inputs as
    they are, dictionaries too: that case, Keras' [built] flags and the
    logging are left out, and the statements below are about keys that
    resolve to tensors, where the guard changes nothing. *)
Definition input_tensor (v : value) : result tensor :=
  match v with
  | Tensor t => Ok t
  | Ref _ => Raise AttributeError
  end.

(** The body of [for node in self.dag] in [get_controls]. *)
Definition run_node (outputs : loc) (node : Node) : M unit :=
  let '(processor, keys) := node in
  inputs ← comprehension (λ key, core.nested_lookup key outputs) keys;
  inputs ← lift (mapM input_tensor inputs);
  controls ← lift (Processor.get_controls processor inputs);
  controls_obj ← new_dict (Tensor <$> controls);
  signal ← lift (Processor.get_signal processor controls);
  entry ← new_dict {[ "controls" := Ref controls_obj; "signal" := Tensor signal ]};
  setitem outputs (Processor.name processor) (Ref entry).

(** [ProcessorGroup.get_controls]: [outputs] is [dag_inputs] itself, not a
    copy; the entry of the group is read back from the entry under the name
    of the last processor. *)
Definition get_controls (self : t) (dag_inputs : loc) : M loc :=
  let outputs := dag_inputs in
  _ ← for_each (run_node outputs) (dag self);
  output_name ← lift (match last (processors self) with
                      | Some p => Ok (Processor.name p)
                      | None => Raise IndexError
                      end);
  entry ← getitem (Ref outputs) output_name;
  signal ← getitem entry "signal";
  group_entry ← new_dict {[ "signal" := signal ]};
  _ ← setitem outputs (name self) (Ref group_entry);
  mret outputs.

(** [ProcessorGroup.get_signal]. *)
Definition get_signal (self : t) (dag_outputs : loc) : M value :=
  entry ← getitem (Ref dag_outputs) (name self);
  getitem entry "signal".

(** [ProcessorGroup.call]. *)
Definition call (self : t) (dag_inputs : loc) : M value :=
  dag_outputs ← get_controls self dag_inputs;
  signal ← get_signal self dag_outputs;
  mret signal.

End ProcessorGroup.

(** ** Routing processors *)

(** A call with keyword arguments unpacked from [kwargs], to a function with
    parameters [params]: every parameter must be given and no other keyword,
    or Python raises TypeError. *)
Definition bind_keywords (params : list string) (kwargs : gmap string tensor)
  : result (list tensor) :=
  match mapM (λ p, kwargs !! p) params with
  | Some args =>
      if (size kwargs =? length params)%nat then Ok args else Raise TypeError
  | None => Raise TypeError
  end.

Module Add.

(** [Add.get_controls]: just pass signals through. *)
Definition get_controls (args : list tensor) : result (gmap string tensor) :=
  match args with
  | [signal_one; signal_two] =>
      Ok {[ "signal_one" := signal_one; "signal_two" := signal_two ]}
  | _ => Raise TypeError
  end.

(** [Add.get_signal]. *)
Definition get_signal (kwargs : gmap string tensor) : result tensor :=
  args ← bind_keywords ["signal_one"; "signal_two"] kwargs;
  match args with
  | [signal_one; signal_two] => tadd signal_one signal_two
  | _ => Raise TypeError
  end.

(** [Add.__init__]: the name is 'add' unless given. *)
Definition __init__ (name : string) : Processor.t :=
  {| Processor.name := name;
     Processor.get_controls := get_controls;
     Processor.get_signal := get_signal |}.

End Add.

Module Mix.

(** [tf.nn.sigmoid] on one element, as the logistic function over the
    reals.  It lies strictly between 0 and 1; rounded to a float it reaches
    both ends, so that only the range [[0, 1]] is stated of the level. *)
Definition sigmoid (x : R) : R := (1 / (1 + exp (- x)))%R.

(** The keyword arguments [Mix.get_signal] is called with. *)
Definition controls (signal_one signal_two mix_level : tensor) : gmap string tensor :=
  {[ "signal_one" := signal_one;
     "signal_two" := signal_two;
     "mix_level" := mix_level ]}.

(** The two weights of [Mix.get_signal]. *)
Definition mix_level_one (mix_level : tensor) : tensor :=
  tmap sqrt (tmap Rabs mix_level).

Definition mix_level_two (mix_level : tensor) : tensor :=
  tmap (λ x, 1 - x)%R (tmap sqrt (tmap Rabs (tmap (λ x, x - 1)%R mix_level))).

(** [Mix.get_signal]. *)
Definition get_signal (kwargs : gmap string tensor) : result tensor :=
  args ← bind_keywords ["signal_one"; "signal_two"; "mix_level"] kwargs;
  match args with
  | [signal_one; signal_two; mix_level] =>
      one ← tmul (mix_level_one mix_level) signal_one;
      two ← tmul (mix_level_two mix_level) signal_two;
      tadd one two
  | _ => Raise TypeError
  end.

Section WithCore.

(** [core.resample(inputs, n_timesteps)] is not part of the excerpt: it is
    taken as it comes, tensor and target length in, tensor or exception out. *)
Variable resample : tensor -> nat -> result tensor.

(** [Mix.get_controls]. *)
Definition get_controls (args : list tensor) : result (gmap string tensor) :=
  match args with
  | [signal_one; signal_two; nn_out_mix_level] =>
      n_time_one ← shape_at signal_one 1;
      n_time_two ← shape_at signal_two 1;
      if decide (n_time_one ≠ n_time_two) then Raise ValueError
      else
        let mix_level := tmap sigmoid nn_out_mix_level in
        mix_level ← resample mix_level n_time_one;
        Ok (controls signal_one signal_two mix_level)
  | _ => Raise TypeError
  end.

(** [Mix.__init__]: the name is 'mix' unless given. *)
Definition __init__ (name : string) : Processor.t :=
  {| Processor.name := name;
     Processor.get_controls := get_controls;
     Processor.get_signal := get_signal |}.

End WithCore.

End Mix.

(** ** The algorithm of the group as the specification words it *)

Module Spec.

(** Steps 1 to 5 for one node: resolve the keys, compute the controls and
    the signal, record them under the processor's name.  The signal is
    handed on. *)
Definition node (outputs : loc) (n : Node) : M tensor :=
  let '(processor, keys) := n in
  inputs ← comprehension (λ key, core.nested_lookup key outputs) keys;
  inputs ← lift (mapM ProcessorGroup.input_tensor inputs);
  controls ← lift (Processor.get_controls processor inputs);
  controls_obj ← new_dict (Tensor <$> controls);
  signal ← lift (Processor.get_signal processor controls);
  entry ← new_dict {[ "controls" := Ref controls_obj; "signal" := Tensor signal ]};
  _ ← setitem outputs (Processor.name processor) (Ref entry);
  mret signal.

(** The nodes in declared order; [last] is the signal of the node before. *)
Fixpoint nodes (outputs : loc) (ns : DAG) (last : option tensor) : M (option tensor) :=
  match ns with
  | [] => mret last
  | n :: ns' => signal ← node outputs n; nodes outputs ns' (Some signal)
  end.

(** After the loop the group's own entry is the signal of the last node;
    without a last node there is nothing to record. *)
Definition get_controls (d : DAG) (group_name : string) (dag_inputs : loc) : M loc :=
  last ← nodes dag_inputs d None;
  match last with
  | Some signal =>
      group_entry ← new_dict {[ "signal" := Tensor signal ]};
      _ ← setitem dag_inputs group_name (Ref group_entry);
      mret dag_inputs
  | None => lift (Raise IndexError)
  end.

End Spec.

(** ** Sample objects *)

Module Sample.

Definition vec (xs : list R) : tensor := {| shape := [length xs]; data := xs |}.

(** [inputs = {"x": [1, 2, 3], "y": [4, 5, 6]}], alone in the store. *)
Definition inputs : dict :=
  {[ "x" := Tensor (vec [1; 2; 3]%R); "y" := Tensor (vec [4; 5; 6]%R) ]}.

Definition store : heap := [inputs].

(** The group with the DAG [[(Add(), ["x", "y"])]]. *)
Definition add_group : ProcessorGroup.t :=
  ProcessorGroup.__init__ [(Add.__init__ "add", ["x"; "y"])] "processor_group".

(** What the node of [add_group] computes and leaves in the store. *)
Definition sum : tensor := {| shape := [3%nat]; data := [1 + 4; 2 + 5; 3 + 6]%R |}.

Definition add_controls : gmap string tensor :=
  {[ "signal_one" := vec [1; 2; 3]%R; "signal_two" := vec [4; 5; 6]%R ]}.

Definition store_after_add : heap :=
  [ <[ "add" := Ref 2 ]> inputs;
    Tensor <$> add_controls;
    {[ "controls" := Ref 1; "signal" := Tensor sum ]} ].

(** A namespace that has the group's name among its keys already, as the
    namespace another group of the same default name has returned. *)
Definition chained_inputs : dict :=
  <[ "processor_group" := Tensor (vec [0]%R) ]> inputs.

(** A DAG whose second node asks for the signal of a processor "mix" that
    no node has run. *)
Definition first_node : Node := (Add.__init__ "add", ["x"; "y"]).
Definition second_node : Node := (Add.__init__ "sum", ["add/signal"; "mix/signal"]).

(** Three tensors of shape [[1, 2]]: one batch, two time steps. *)
Definition signal_one : tensor := {| shape := [1; 2]%nat; data := [1; 2]%R |}.
Definition signal_two : tensor := {| shape := [1; 2]%nat; data := [3; 5]%R |}.
Definition level : tensor := {| shape := [1; 2]%nat; data := [-1; 2]%R |}.

(** A signal of three time steps. *)
Definition longer_signal : tensor :=
  {| shape := [1; 3]%nat; data := [3; 5; 8]%R |}.

(** A resampling that finds the target length in place already. *)
Definition resample_same (t : tensor) (n : nat) : result tensor := Ok t.

End Sample.

(** ** Vocabulary of the statements *)

(** The processor names of a DAG, in node order. *)
Definition names (ns : DAG) : list string :=
  (λ n : Node, Processor.name n.1) <$> ns.

(** The namespace [d], the object at [l], holds under [key] a reference to
    another object, which is [{'controls': <object>, 'signal': s}]. *)
Definition node_entry (h : heap) (l : loc) (d : dict) (key : string) (s : tensor) : Prop :=
  ∃ e c, d !! key = Some (Ref e) ∧ e ≠ l ∧
         h !! e = Some {[ "controls" := Ref c; "signal" := Tensor s ]}.

(** A key path resolves from [v] to [v']: every segment is a key of the
    dictionary reached so far. *)
Inductive resolves (h : heap) : value → list string → value → Prop :=
  | resolves_end (v : value) : resolves h v [] v
  | resolves_level (l : loc) (d : dict) (k : string) (v v' : value)
      (keys : list string) :
      h !! l = Some d → d !! k = Some v → resolves h v keys v' →
      resolves h (Ref l) (k :: keys) v'.

(** One node runs in the namespace at [l]: each of its keys resolves there
    to a tensor, its processor returns the controls for these inputs and the
    signal for these controls, and the store gains the controls object, the
    object [{'controls': .., 'signal': ..}], and the reference to it under
    the processor's name in the namespace. *)
Inductive node_runs (l : loc) : Node → heap → tensor → heap → Prop :=
  | node_runs_intro (p : Processor.t) (keys : list string) (h : heap) (d : dict)
      (inputs : list tensor) (controls : gmap string tensor) (signal : tensor) :
      h !! l = Some d →
      Forall2 (λ key t, resolves h (Ref l) (core.split "/" key) (Tensor t))
              keys inputs →
      Processor.get_controls p inputs = Ok controls →
      Processor.get_signal p controls = Ok signal →
      node_runs l (p, keys) h signal
        (<[l := <[Processor.name p := Ref (S (length h))]> d]>
           (h ++ [Tensor <$> controls;
                  {[ "controls" := Ref (length h); "signal" := Tensor signal ]}])%list).

(** The nodes run one after the other in declared order, each in the store
    the one before left; their signals are collected in that order. *)
Inductive dag_runs (l : loc) : DAG → heap → list tensor → heap → Prop :=
  | dag_runs_nil (h : heap) : dag_runs l [] h [] h
  | dag_runs_cons (n : Node) (ns : DAG) (h h1 h2 : heap)
      (signal : tensor) (signals : list tensor) :
      node_runs l n h signal h1 →
      dag_runs l ns h1 signals h2 →
      dag_runs l (n :: ns) h (signal :: signals) h2.

(** ** More sample objects *)

Module Fixture.

(** The tensors under "x" and "y" of the sample inputs. *)
Definition x : tensor := Sample.vec [1; 2; 3]%R.
Definition y : tensor := Sample.vec [4; 5; 6]%R.

(** The sample store after the node [(Add('add'), ["x", "y"])]. *)
Definition after_add : heap :=
  (for_each (ProcessorGroup.run_node 0) [Sample.first_node] Sample.store).2.

(** A node that takes the signal of "add" and the input "x". *)
Definition chained_node : Node := (Add.__init__ "sum", ["add/signal"; "x"]).

(** A node of the base class, and a second node named "add". *)
Definition base_node : Node := (Processor.__init__ "base", ["x"]).
Definition second_add : Node := (Add.__init__ "add", ["x"; "x"]).

(** What [second_add] computes: "x" added to itself. *)
Definition double : tensor :=
  {| shape := [3%nat]; data := [1 + 1; 2 + 2; 3 + 3]%R |}.

(** The two nodes in a chain, and the store after [get_controls] of their
    group has run on the sample store. *)
Definition chain : DAG := [Sample.first_node; chained_node].

Definition after_chain : heap :=
  (ProcessorGroup.get_controls (ProcessorGroup.__init__ chain "processor_group")
     0 Sample.store).2.

(** Two levels within [[0, 1]], the second nowhere below the first. *)
Definition low : tensor := {| shape := [1; 2]%nat; data := [0; 1 / 4]%R |}.
Definition high : tensor := {| shape := [1; 2]%nat; data := [1 / 2; 1]%R |}.

End Fixture.

(** ** Vocabulary of the further statements *)

(** A string that is one segment of a key path: it holds no slash, so that
    splitting it gives the string itself. *)
Definition segment (s : string) : Prop := core.split "/" s = [s].

(** * Properties *)

(** ** Tensors of one shape *)

Lemma broadcast_dim_same x : broadcast_dim x x = Some x.
Proof. unfold broadcast_dim. by rewrite Nat.eqb_refl. Qed.

Lemma broadcast_rev_same a : broadcast_rev a a = Some a.
Proof.
  induction a as [|x a IH]; [done|].
  simpl. by rewrite broadcast_dim_same, IH.
Qed.

Lemma broadcast_shape_same s : broadcast_shape s s = Some s.
Proof.
  unfold broadcast_shape. rewrite broadcast_rev_same. simpl.
  by rewrite reverse_involutive.
Qed.

Lemma pad_shape_same s : pad_shape (length s) s = s.
Proof. unfold pad_shape. by rewrite Nat.sub_diag. Qed.

Lemma concat_chunks n k d :
  length d = (k * n)%nat → concat (chunks n k d) = d.
Proof.
  revert d. induction k as [|k IH]; intros d Hd; simpl in *.
  - by destruct d.
  - rewrite IH; [apply take_drop|]. rewrite length_drop. lia.
Qed.

Lemma chunks_lengths n k d :
  length d = (k * n)%nat → Forall (λ row, length row = n) (chunks n k d).
Proof.
  revert d. induction k as [|k IH]; intros d Hd; simpl in *; constructor.
  - rewrite length_take. lia.
  - apply IH. rewrite length_drop. lia.
Qed.

Lemma broadcast_to_same s d : length d = numel s → broadcast_to s s d = d.
Proof.
  revert d. induction s as [|x s IH]; intros d Hd; [done|].
  simpl in *. rewrite Nat.eqb_refl.
  assert (map (broadcast_to s s) (chunks (numel s) x d) = chunks (numel s) x d) as ->.
  { rewrite <- (map_id (chunks (numel s) x d)) at 2.
    apply map_ext_Forall.
    eapply Forall_impl; [by apply chunks_lengths|].
    simpl. intros row Hrow. by apply IH. }
  by apply concat_chunks.
Qed.

Lemma tzip_same_shape f a b :
  shape b = shape a → well_shaped a → well_shaped b →
  tzip f a b = Ok {| shape := shape a; data := zip_with f (data a) (data b) |}.
Proof.
  unfold well_shaped, tzip. intros Hs Ha Hb.
  rewrite Hs, broadcast_shape_same, pad_shape_same.
  rewrite !broadcast_to_same; congruence.
Qed.

Lemma tmap_well_shaped f t : well_shaped t → well_shaped (tmap f t).
Proof. unfold well_shaped, tmap. simpl. by rewrite length_map. Qed.

Lemma tzip_well_shaped f a b :
  shape b = shape a → well_shaped a → well_shaped b →
  well_shaped {| shape := shape a; data := zip_with f (data a) (data b) |}.
Proof.
  unfold well_shaped. simpl. intros Hs Ha Hb.
  rewrite length_zip_with. rewrite Ha, Hb, Hs. lia.
Qed.

(** ** Running in the store *)

Lemma bind_unfold {A B : Type} (m : M A) (f : A → M B) (h : heap) :
  (m ≫= f) h = match m h with
               | (Ok a, h') => f a h'
               | (Raise e, h') => (Raise e, h')
               end.
Proof. reflexivity. Qed.

Lemma bind_Ok_inv {A B : Type} (m : M A) (f : A → M B) (h h2 : heap) (b : B) :
  (m ≫= f) h = (Ok b, h2) → ∃ a h1, m h = (Ok a, h1) ∧ f a h1 = (Ok b, h2).
Proof.
  rewrite bind_unfold. destruct (m h) as [[a|e] h1]; [eauto|discriminate].
Qed.

Lemma lift_Ok_inv {A : Type} (r : result A) (h h1 : heap) (a : A) :
  lift r h = (Ok a, h1) → r = Ok a ∧ h1 = h.
Proof. unfold lift. by intros [= -> ->]. Qed.

Lemma new_dict_inv (d : dict) (h h1 : heap) (l : loc) :
  new_dict d h = (Ok l, h1) → l = length h ∧ h1 = (h ++ [d])%list.
Proof. unfold new_dict. by intros [= <- <-]. Qed.

Lemma setitem_Ok_inv (l : loc) (k : string) (v : value) (h h1 : heap) (u : ()) :
  setitem l k v h = (Ok u, h1) →
  ∃ d, h !! l = Some d ∧ h1 = <[l := <[k := v]> d]> h.
Proof.
  unfold setitem. destruct (h !! l) as [d|]; [|discriminate].
  intros [= _ <-]. eauto.
Qed.

Lemma mret_Ok_inv {A : Type} (a b : A) (h h1 : heap) :
  (mret a : M A) h = (Ok b, h1) → b = a ∧ h1 = h.
Proof. by intros [= -> ->]. Qed.

(** Looking keys up reads the store and leaves it as it is. *)
Lemma lookups_keep_store (l : loc) (keys : list string) (h : heap) :
  (comprehension (λ key, core.nested_lookup key l) keys h).2 = h.
Proof.
  induction keys as [|key keys IH]; [done|].
  simpl. rewrite bind_unfold. unfold core.nested_lookup at 1.
  destruct (core.descend h (Ref l) _) as [v|e]; [|done].
  rewrite bind_unfold.
  destruct (comprehension _ keys h) as [[vs|e] h1] eqn:E; simpl in *;
    by subst.
Qed.

(** What one node leaves behind: two new objects at the end of the store,
    and the entry under the processor's name in the namespace. *)
Lemma Spec_node_Ok (l : loc) (p : Processor.t) (keys : list string)
    (h h' : heap) (d : dict) (s : tensor) :
  h !! l = Some d →
  Spec.node l (p, keys) h = (Ok s, h') →
  ∃ (inputs : list tensor) (controls : gmap string tensor),
    Processor.get_controls p inputs = Ok controls ∧
    Processor.get_signal p controls = Ok s ∧
    h' = <[l := <[Processor.name p := Ref (S (length h))]> d]>
           (h ++ [Tensor <$> controls;
                  {[ "controls" := Ref (length h); "signal" := Tensor s ]}])%list.
Proof.
  intros Hl H. unfold Spec.node in H.
  apply bind_Ok_inv in H as (vs & h1 & Hvs & H).
  assert (h1 = h) as ->.
  { by rewrite <- (lookups_keep_store l keys h), Hvs. }
  apply bind_Ok_inv in H as (inputs & h1 & [Hin ->]%lift_Ok_inv & H).
  apply bind_Ok_inv in H as (controls & h1 & [Hc ->]%lift_Ok_inv & H).
  apply bind_Ok_inv in H as (c & h1 & [-> ->]%new_dict_inv & H).
  apply bind_Ok_inv in H as (s' & h1 & [Hs ->]%lift_Ok_inv & H).
  apply bind_Ok_inv in H as (e & h1 & [-> ->]%new_dict_inv & H).
  apply bind_Ok_inv in H as (u & h1 & (d' & Hd' & ->)%setitem_Ok_inv & H).
  apply mret_Ok_inv in H as [-> ->].
  exists inputs, controls. split_and!; [done..|].
  rewrite <- (assoc_L (++)) in *. simpl in *.
  rewrite length_app in *. simpl in *.
  rewrite lookup_app_l in Hd' by (by eapply lookup_lt_Some).
  replace (length h + 1)%nat with (S (length h)) by lia.
  by simplify_eq.
Qed.

(** The loop body of the code is the node step of the specification, its
    signal dropped. *)
Lemma run_node_Spec_node (l : loc) (n : Node) (h : heap) :
  ProcessorGroup.run_node l n h = (Spec.node l n ≫= λ _, mret ()) h.
Proof.
  destruct n as [p keys]. unfold ProcessorGroup.run_node, Spec.node.
  rewrite !bind_unfold.
  destruct (comprehension _ keys h) as [[vs|e] h1]; [|done].
  rewrite !bind_unfold.
  destruct (lift (mapM ProcessorGroup.input_tensor vs) h1) as [[inputs|e] h2]; [|done].
  rewrite !bind_unfold.
  destruct (lift (Processor.get_controls p inputs) h2) as [[controls|e] h3]; [|done].
  rewrite !bind_unfold. unfold new_dict at 1 3.
  rewrite !bind_unfold.
  destruct (lift (Processor.get_signal p controls) _) as [[signal|e] h4]; [|done].
  rewrite !bind_unfold. unfold new_dict.
  rewrite !bind_unfold.
  by destruct (setitem _ _ _ _) as [[[]|e] h5].
Qed.

Lemma for_each_Spec_nodes (l : loc) (ns : DAG) (last : option tensor) (h : heap) :
  for_each (ProcessorGroup.run_node l) ns h =
  (Spec.nodes l ns last ≫= λ _, mret ()) h.
Proof.
  revert last h. induction ns as [|n ns IH]; intros last h; [done|].
  simpl. rewrite !bind_unfold, run_node_Spec_node, bind_unfold.
  destruct (Spec.node l n h) as [[s|e] h1]; [|done].
  simpl. by rewrite (IH (Some s)), bind_unfold.
Qed.

Lemma Spec_nodes_app (l : loc) (ns1 ns2 : DAG) (last : option tensor) (h : heap) :
  Spec.nodes l (ns1 ++ ns2) last h =
  (Spec.nodes l ns1 last ≫= Spec.nodes l ns2) h.
Proof.
  revert last h. induction ns1 as [|n ns1 IH]; intros last h; [done|].
  simpl. rewrite !bind_unfold.
  destruct (Spec.node l n h) as [[s|e] h1]; [|done].
  by rewrite IH, bind_unfold.
Qed.

(** The store after a node, cell by cell. *)
Lemma node_store (l : loc) (k : string) (h : heap) (d C E : dict) :
  h !! l = Some d →
  let h' := <[l := <[k := Ref (S (length h))]> d]> (h ++ [C; E])%list in
  h' !! l = Some (<[k := Ref (S (length h))]> d) ∧
  h' !! S (length h) = Some E ∧
  S (length h) ≠ l ∧
  length h' = S (S (length h)) ∧
  (∀ i, i ≠ l → i < length h → h' !! i = h !! i).
Proof.
  intros Hl h'. pose proof (lookup_lt_Some _ _ _ Hl) as Hlt.
  subst h'. split_and!.
  - apply list_lookup_insert_eq. rewrite length_app. simpl. lia.
  - rewrite list_lookup_insert_ne by lia.
    rewrite lookup_app_r by lia.
    by replace (S (length h) - length h)%nat with 1%nat by lia.
  - lia.
  - rewrite length_insert, length_app. simpl. lia.
  - intros i Hi Hlen.
    rewrite list_lookup_insert_ne by done. by apply lookup_app_l.
Qed.

(** The loop, node after node: the namespace stays the object at [l], the
    objects that were in the store stay as they were, every node's name
    holds an entry, and the signal handed on is the one of the last node. *)
Lemma Spec_nodes_Ok (l : loc) (ns : DAG) (prev r : option tensor)
    (h h' : heap) (d : dict) :
  h !! l = Some d →
  Spec.nodes l ns prev h = (Ok r, h') →
  ∃ d', h' !! l = Some d' ∧
    (length h ≤ length h')%nat ∧
    (∀ i, i ≠ l → i < length h → h' !! i = h !! i) ∧
    dom d' = dom d ∪ list_to_set (names ns) ∧
    (∀ k, k ∉ names ns → d' !! k = d !! k) ∧
    (∀ k, k ∈ names ns → ∃ s, node_entry h' l d' k s) ∧
    match last ns with
    | Some n => ∃ s, r = Some s ∧ node_entry h' l d' (Processor.name n.1) s
    | None => r = prev
    end.
Proof.
  intros Hl. revert r h'.
  induction ns as [|[p keys] ns IH] using rev_ind; intros r h' H.
  - apply mret_Ok_inv in H as [-> ->]. exists d.
    split_and!; try done; [set_solver|]. by intros k ?%elem_of_nil.
  - rewrite Spec_nodes_app in H.
    apply bind_Ok_inv in H as (r0 & h1 & H0 & H). cbn [Spec.nodes] in H.
    apply bind_Ok_inv in H as (s & h2 & Hn & [-> ->]%mret_Ok_inv).
    destruct (IH _ _ H0) as (d1 & Hl1 & Hlen & Hframe & Hdom & Hkeep & Hent & _).
    destruct (Spec_node_Ok _ _ _ _ _ _ _ Hl1 Hn) as (inputs & controls & _ & _ & ->).
    destruct (node_store l (Processor.name p) h1 d1 (Tensor <$> controls)
                {[ "controls" := Ref (length h1); "signal" := Tensor s ]} Hl1)
      as (Hl' & He & Hne & Hlen' & Hframe').
    assert (node_entry
              (<[l:=<[Processor.name p:=Ref (S (length h1))]> d1]>
                 (h1 ++ [Tensor <$> controls;
                         {["controls" := Ref (length h1); "signal" := Tensor s]}])%list)
              l (<[Processor.name p:=Ref (S (length h1))]> d1)
              (Processor.name p) s) as Hnew.
    { exists (S (length h1)), (length h1). by rewrite lookup_insert_eq. }
    eexists. split; [exact Hl'|]. unfold names in *. rewrite fmap_app. simpl.
    split_and!.
    + lia.
    + intros i Hi Hlt. rewrite Hframe' by lia. by apply Hframe.
    + rewrite dom_insert_L, Hdom, list_to_set_app_L. set_solver.
    + intros k Hk. rewrite not_elem_of_app, list_elem_of_singleton in Hk.
      destruct Hk as [Hk1 Hk2]. rewrite lookup_insert_ne by done. by apply Hkeep.
    + intros k Hk.
      destruct (decide (k = Processor.name p)) as [->|Hkp]; [by exists s|].
      rewrite elem_of_app, list_elem_of_singleton in Hk.
      destruct Hk as [Hk|Hk]; [|done].
      destruct (Hent k Hk) as (s0 & e0 & c0 & Hk0 & Hne0 & He0).
      exists s0, e0, c0. rewrite lookup_insert_ne by done.
      split_and!; [done..|].
      rewrite Hframe'; [done..|]. by eapply lookup_lt_Some.
    + rewrite last_snoc. simpl. by exists s.
Qed.

(** Reading [outputs[key]['signal']] back from a recorded entry. *)
Lemma read_back_signal (l : loc) (key : string) (h : heap) (d : dict) (s : tensor) :
  h !! l = Some d →
  node_entry h l d key s →
  (getitem (Ref l) key ≫= λ entry, getitem entry "signal") h = (Ok (Tensor s), h).
Proof.
  intros Hl (e & c & Hkey & _ & He).
  rewrite bind_unfold. unfold getitem at 1. rewrite Hl, Hkey.
  unfold getitem. rewrite He.
  by rewrite lookup_insert_ne, lookup_singleton_eq.
Qed.

(** The code and the algorithm of the specification run alike from every
    store in which [dag_inputs] is a dictionary. *)
Lemma get_controls_Spec (d : DAG) (name : string) (l : loc) (h : heap) (ns : dict) :
  h !! l = Some ns →
  ProcessorGroup.get_controls (ProcessorGroup.__init__ d name) l h =
  Spec.get_controls d name l h.
Proof.
  intros Hl. unfold ProcessorGroup.get_controls, Spec.get_controls. simpl.
  rewrite bind_unfold, (for_each_Spec_nodes l d None), !bind_unfold.
  destruct (Spec.nodes l d None h) as [[r|e] h1] eqn:E; [|done].
  destruct (Spec_nodes_Ok _ _ _ _ _ _ _ Hl E) as (d1 & Hl1 & _ & _ & _ & _ & _ & Hlast).
  simpl. rewrite bind_unfold, fmap_last.
  destruct (last d) as [[p keys]|]; simpl in *.
  - destruct Hlast as (s & -> & Hentry).
    pose proof (read_back_signal _ _ _ _ _ Hl1 Hentry) as Hread.
    rewrite bind_unfold in Hread. rewrite bind_unfold.
    destruct (getitem (Ref l) (Processor.name p) h1) as [[entry|e] h2]; [|done].
    by rewrite bind_unfold, Hread.
  - by subst r.
Qed.

(** A run of the specification's algorithm that returns. *)
Lemma Spec_get_controls_Ok (d : DAG) (name : string) (l out : loc)
    (h h' : heap) (ns : dict) :
  h !! l = Some ns →
  Spec.get_controls d name l h = (Ok out, h') →
  out = l ∧
  ∃ (h1 : heap) (d1 : dict) (s : tensor),
    Spec.nodes l d None h = (Ok (Some s), h1) ∧
    h1 !! l = Some d1 ∧
    h' = <[l := <[name := Ref (length h1)]> d1]>
           (h1 ++ [{[ "signal" := Tensor s ]}])%list.
Proof.
  intros Hl H. unfold Spec.get_controls in H.
  apply bind_Ok_inv in H as (r & h1 & Hnodes & H).
  destruct r as [s|]; [|by apply lift_Ok_inv in H as [? _]].
  apply bind_Ok_inv in H as (g & h2 & [-> ->]%new_dict_inv & H).
  apply bind_Ok_inv in H as (u & h2 & (d1 & Hd1 & ->)%setitem_Ok_inv & H).
  apply mret_Ok_inv in H as [-> ->].
  destruct (Spec_nodes_Ok _ _ _ _ _ _ _ Hl Hnodes) as (d1' & Hl1 & _).
  rewrite lookup_app_l in Hd1 by (by eapply lookup_lt_Some).
  split; [done|]. exists h1, d1, s. by simplify_eq.
Qed.

(** ** Keys that do not resolve *)

Lemma for_each_app {A : Type} (body : A → M ()) (xs ys : list A) (h : heap) :
  for_each body (xs ++ ys) h = (for_each body xs ≫= λ _, for_each body ys) h.
Proof.
  revert h. induction xs as [|x xs IH]; intros h; [done|].
  simpl. rewrite !bind_unfold. destruct (body x h) as [[[]|e] h1]; [|done].
  by rewrite IH, bind_unfold.
Qed.

Lemma descend_Ok (h : heap) (v v' : value) (keys : list string) :
  core.descend h v keys = Ok v' ↔ resolves h v keys v'.
Proof.
  split.
  - revert v. induction keys as [|k keys IH]; intros v H; simpl in H.
    + injection H as ->. constructor.
    + destruct v as [t|l]; [done|].
      destruct (h !! l) as [d|] eqn:Hl; [|done]. simpl in H.
      destruct (d !! k) as [v1|] eqn:Hk; [|done].
      econstructor; eauto.
  - induction 1 as [|l d k v1 v2 keys Hl Hk _ IH]; [done|].
    simpl. by rewrite Hl; simpl; rewrite Hk.
Qed.

Lemma descend_Raise (h : heap) (v : value) (keys : list string) (e : exn) :
  core.descend h v keys = Raise e → e = KeyError.
Proof.
  revert v. induction keys as [|k keys IH]; intros v H; simpl in H; [done|].
  destruct v as [t|l]; [congruence|].
  destruct (h !! l ≫= (.!! k)) as [v1|]; [eauto|congruence].
Qed.

(** A path that does not resolve is what makes the lookup raise. *)
Lemma unresolved_KeyError (h : heap) (v : value) (keys : list string) :
  (¬ ∃ v', resolves h v keys v') ↔ core.descend h v keys = Raise KeyError.
Proof.
  split.
  - intros Hno. destruct (core.descend h v keys) as [v'|e] eqn:E.
    + destruct Hno. exists v'. by apply descend_Ok.
    + by apply descend_Raise in E as ->.
  - intros E [v' Hv']. apply descend_Ok in Hv'. congruence.
Qed.

Lemma lookups_raise (l : loc) (keys : list string) (key : string) (h : heap) :
  key ∈ keys →
  (¬ ∃ v, resolves h (Ref l) (core.split "/" key) v) →
  comprehension (λ key, core.nested_lookup key l) keys h = (Raise KeyError, h).
Proof.
  intros Hin Hno. induction keys as [|k keys IH]; [by apply elem_of_nil in Hin|].
  simpl. rewrite bind_unfold. unfold core.nested_lookup at 1.
  destruct (core.descend h (Ref l) (core.split "/" k)) as [v|e] eqn:E.
  - rewrite bind_unfold. apply elem_of_cons in Hin as [->|Hin].
    + destruct Hno. exists v. by apply descend_Ok.
    + by rewrite IH.
  - by apply descend_Raise in E as ->.
Qed.

(** ** ProcessorGroup *)

Lemma lookups_Ok (l : loc) (keys : list string) (inputs : list tensor) (h : heap) :
  Forall2 (λ key t, resolves h (Ref l) (core.split "/" key) (Tensor t)) keys inputs →
  comprehension (λ key, core.nested_lookup key l) keys h = (Ok (Tensor <$> inputs), h).
Proof.
  induction 1 as [|key t keys inputs Hkey _ IH]; [done|].
  simpl. rewrite bind_unfold. unfold core.nested_lookup at 1.
  apply descend_Ok in Hkey. rewrite Hkey.
  by rewrite bind_unfold, IH.
Qed.

Lemma input_tensors_Ok (inputs : list tensor) :
  mapM ProcessorGroup.input_tensor (Tensor <$> inputs) = Ok inputs.
Proof.
  induction inputs as [|t inputs IH]; [done|].
  rewrite fmap_cons.
  cbn [mapM ProcessorGroup.input_tensor mbind result_mbind result_bind].
  by rewrite IH.
Qed.

Lemma node_runs_Spec (l : loc) (n : Node) (h h' : heap) (s : tensor) :
  node_runs l n h s h' → Spec.node l n h = (Ok s, h').
Proof.
  intros [p keys h0 d inputs controls signal Hl Hkeys Hc Hs].
  unfold Spec.node. rewrite bind_unfold, (lookups_Ok _ _ _ _ Hkeys).
  rewrite bind_unfold. unfold lift at 1. rewrite input_tensors_Ok.
  rewrite bind_unfold. unfold lift at 1. rewrite Hc.
  rewrite bind_unfold. unfold new_dict at 1.
  rewrite bind_unfold. unfold lift at 1. rewrite Hs.
  rewrite bind_unfold. unfold new_dict at 1.
  rewrite bind_unfold. unfold setitem.
  pose proof (lookup_lt_Some _ _ _ Hl) as Hlt.
  rewrite <- (assoc_L (++)). simpl.
  rewrite lookup_app_l by done. rewrite Hl.
  rewrite length_app. simpl.
  by replace (length h0 + 1)%nat with (S (length h0)) by lia.
Qed.

Lemma dag_runs_Spec (l : loc) (ns : DAG) (h h' : heap) (signals : list tensor)
    (prev : option tensor) :
  dag_runs l ns h signals h' →
  Spec.nodes l ns prev h =
  (Ok (match last signals with Some s => Some s | None => prev end), h').
Proof.
  intros H. revert prev.
  induction H as [h0|n ns h0 h1 h2 s ss Hn _ IH]; intros prev; [done|].
  simpl. rewrite bind_unfold, (node_runs_Spec _ _ _ _ _ Hn), IH.
  rewrite last_cons. by destruct (last ss).
Qed.

Lemma dag_runs_length (l : loc) (ns : DAG) (h h' : heap) (signals : list tensor) :
  dag_runs l ns h signals h' → length signals = length ns.
Proof. induction 1; simpl; congruence. Qed.

(** The node of the sample group runs, from the sample store. *)
Example add_group_runs :
  dag_runs 0 [(Add.__init__ "add", ["x"; "y"])] Sample.store [Sample.sum]
    Sample.store_after_add.
Proof.
  apply dag_runs_cons with (h1 := Sample.store_after_add); [|apply dag_runs_nil].
  apply (node_runs_intro 0 (Add.__init__ "add") ["x"; "y"] Sample.store Sample.inputs
           [Sample.vec [1; 2; 3]%R; Sample.vec [4; 5; 6]%R]
           Sample.add_controls Sample.sum).
  - reflexivity.
  - repeat constructor; apply descend_Ok; vm_compute; reflexivity.
  - reflexivity.
  - vm_compute. reflexivity.
Qed.

(** C1. On a dictionary, [get_controls] of a group with a non-empty DAG is
    the algorithm of the specification, result and store alike, also when a
    step raises: the nodes in declared order, each resolving its keys in the
    namespace, computing controls and signal and recording
    [{'controls': controls, 'signal': signal}] under the processor's name,
    then [{'signal': s}] under the group's name for the signal [s] of the
    last node.  And when the nodes do run one after the other, keys
    resolving to tensors and processors returning, [get_controls] returns
    the namespace it was given, having added to the store of that run the
    object [{'signal': s}] and its reference under the group's name. *)
Theorem get_controls_runs_dag_in_order (d : DAG) (name : string) (l : loc)
    (h : heap) (ns : dict) :
  d ≠ [] →
  h !! l = Some ns →
  ProcessorGroup.get_controls (ProcessorGroup.__init__ d name) l h =
  Spec.get_controls d name l h ∧
  ∀ (signals : list tensor) (h1 : heap),
    dag_runs l d h signals h1 →
    ∃ (s : tensor) (ns1 : dict),
      last signals = Some s ∧
      h1 !! l = Some ns1 ∧
      ProcessorGroup.get_controls (ProcessorGroup.__init__ d name) l h =
      (Ok l, <[l := <[name := Ref (length h1)]> ns1]>
               (h1 ++ [{[ "signal" := Tensor s ]}])%list).
Proof.
  intros Hd Hl. split; [by eapply get_controls_Spec|].
  intros signals h1 Hruns.
  destruct (last signals) as [s|] eqn:Hlast.
  2: { apply last_None in Hlast. apply dag_runs_length in Hruns.
       subst signals. by destruct d. }
  pose proof (dag_runs_Spec _ _ _ _ _ None Hruns) as Hnodes.
  rewrite Hlast in Hnodes.
  destruct (Spec_nodes_Ok _ _ _ _ _ _ _ Hl Hnodes) as (ns1 & Hl1 & _).
  exists s, ns1. split_and!; [done..|].
  rewrite (get_controls_Spec _ _ _ _ _ Hl). unfold Spec.get_controls.
  rewrite bind_unfold, Hnodes, bind_unfold. unfold new_dict at 1.
  rewrite bind_unfold. unfold setitem.
  by rewrite lookup_app_l, Hl1 by (by eapply lookup_lt_Some).
Qed.

Lemma get_controls_runs_dag_in_order_witness :
  ProcessorGroup.get_controls
    (ProcessorGroup.__init__ [(Add.__init__ "add", ["x"; "y"])] "processor_group")
    0 Sample.store =
  Spec.get_controls [(Add.__init__ "add", ["x"; "y"])] "processor_group" 0 Sample.store ∧
  ∀ (signals : list tensor) (h1 : heap),
    dag_runs 0 [(Add.__init__ "add", ["x"; "y"])] Sample.store signals h1 →
    ∃ (s : tensor) (ns1 : dict),
      last signals = Some s ∧
      h1 !! 0%nat = Some ns1 ∧
      ProcessorGroup.get_controls
        (ProcessorGroup.__init__ [(Add.__init__ "add", ["x"; "y"])] "processor_group")
        0 Sample.store =
      (Ok 0%nat, <[0%nat := <["processor_group" := Ref (length h1)]> ns1]>
                   (h1 ++ [{[ "signal" := Tensor s ]}])%list).
Proof.
  apply (get_controls_runs_dag_in_order
           [(Add.__init__ "add", ["x"; "y"])] "processor_group" 0 Sample.store
           Sample.inputs).
  - discriminate.
  - reflexivity.
Defined.

(** C2. Invoking a group is [get_controls] followed by [get_signal] on its
    result, value and store alike; and the group of the single node
    [(Add, ["x", "y"])] invoked on [{"x": [1,2,3], "y": [4,5,6]}] returns
    [[5, 7, 9]]. *)
Theorem call_is_get_signal_of_get_controls :
  (∀ (g : ProcessorGroup.t) (l : loc) (h : heap),
     ProcessorGroup.call g l h =
     (ProcessorGroup.get_controls g l ≫= ProcessorGroup.get_signal g) h) ∧
  (ProcessorGroup.call Sample.add_group 0 Sample.store).1 =
  Ok (Tensor (Sample.vec [5; 7; 9]%R)).
Proof.
  split.
  - intros g l h. unfold ProcessorGroup.call. rewrite !bind_unfold.
    destruct (ProcessorGroup.get_controls g l h) as [[out|e] h1]; [|done].
    rewrite bind_unfold.
    by destruct (ProcessorGroup.get_signal g out h1) as [[v|e] h2].
  - vm_compute. do 3 f_equal. repeat (apply (f_equal2 cons); [lra|]). reflexivity.
Qed.

(** C8. A group is constructed from an empty DAG without complaint, with no
    processors; every invocation of it, so the first, fails where the last
    processor is asked for, with the IndexError of [self.processors[-1]]
    (the spec's ConfigurationError), and produces no result. *)
Theorem empty_dag_fails (name : string) (l : loc) (h : heap) :
  ProcessorGroup.processors (ProcessorGroup.__init__ [] name) = [] ∧
  ProcessorGroup.get_controls (ProcessorGroup.__init__ [] name) l h = (Raise IndexError, h) ∧
  ProcessorGroup.call (ProcessorGroup.__init__ [] name) l h = (Raise IndexError, h).
Proof. by split_and!. Qed.

(** A run of [get_controls] that returns: the loop ran to the store [h1],
    where the namespace was [d1]; then the group's entry was added. *)
Lemma get_controls_Ok (d : DAG) (name : string) (l out : loc)
    (h h' : heap) (ns : dict) :
  h !! l = Some ns →
  ProcessorGroup.get_controls (ProcessorGroup.__init__ d name) l h = (Ok out, h') →
  out = l ∧
  ∃ (h1 : heap) (d1 : dict) (s : tensor),
    h1 !! l = Some d1 ∧
    (∀ i, i ≠ l → i < length h → h1 !! i = h !! i) ∧
    (length h ≤ length h1)%nat ∧
    dom d1 = dom ns ∪ list_to_set (names d) ∧
    (∀ k, k ∉ names d → d1 !! k = ns !! k) ∧
    (∀ k, k ∈ names d → ∃ s0, node_entry h1 l d1 k s0) ∧
    h' !! l = Some (<[name := Ref (length h1)]> d1) ∧
    h' !! length h1 = Some {[ "signal" := Tensor s ]} ∧
    (∀ i, i ≠ l → i < length h1 → h' !! i = h1 !! i).
Proof.
  intros Hl H. rewrite (get_controls_Spec _ _ _ _ _ Hl) in H.
  apply (Spec_get_controls_Ok _ _ _ _ _ _ _ Hl) in H
    as (-> & h1 & d1 & s & Hnodes & Hl1 & ->).
  split; [done|].
  destruct (Spec_nodes_Ok _ _ _ _ _ _ _ Hl Hnodes)
    as (d1' & Hl1' & Hlen & Hframe & Hdom & Hkeep & Hent & _).
  assert (d1' = d1) as -> by (by simplify_eq).
  pose proof (lookup_lt_Some _ _ _ Hl1) as Hlt.
  exists h1, d1, s. split_and!; try done.
  - apply list_lookup_insert_eq. rewrite length_app. simpl. lia.
  - rewrite list_lookup_insert_ne by lia.
    rewrite lookup_app_r by lia. by rewrite Nat.sub_diag.
  - intros i Hi Hi'. rewrite list_lookup_insert_ne by done.
    by apply lookup_app_l.
Qed.

(** C3, with the group's name fresh as well.  When the processor names of
    a DAG of [n] nodes are pairwise distinct, differ from the group's name,
    and neither they nor the group's name are keys of the input namespace,
    a run of [get_controls] that returns has added exactly [n + 1] keys at
    the top level of the namespace, and every key the namespace had is
    still there. *)
Theorem get_controls_adds_n_plus_one_keys (d : DAG) (name : string)
    (l out : loc) (h h' : heap) (ns : dict) :
  NoDup (names d) →
  name ∉ names d →
  (∀ k, k ∈ name :: names d → ns !! k = None) →
  h !! l = Some ns →
  ProcessorGroup.get_controls (ProcessorGroup.__init__ d name) l h = (Ok out, h') →
  ∃ ns' : dict,
    h' !! out = Some ns' ∧
    size (dom ns' ∖ dom ns) = (length d + 1)%nat ∧
    dom ns ⊆ dom ns'.
Proof.
  intros Hnodup Hname Hfresh Hl H.
  destruct (get_controls_Ok _ _ _ _ _ _ _ Hl H)
    as (-> & h1 & d1 & s & _ & _ & _ & Hdom & _ & _ & Hl' & _).
  eexists. split; [exact Hl'|].
  rewrite dom_insert_L, Hdom.
  assert (∀ k, k ∈ name :: names d → k ∉ dom ns) as Hout.
  { intros k Hk. apply not_elem_of_dom. by apply Hfresh. }
  assert (({[name]} ∪ (dom ns ∪ list_to_set (names d))) ∖ dom ns
          = {[name]} ∪ list_to_set (names d) :> gset string) as ->.
  { apply set_eq. intros k.
    rewrite elem_of_difference, !elem_of_union, elem_of_singleton,
      elem_of_list_to_set.
    split; [tauto|]. intros Hk. split; [tauto|].
    apply Hout. rewrite elem_of_cons. tauto. }
  split.
  - rewrite size_union.
    + rewrite size_singleton, size_list_to_set by done.
      unfold names. rewrite length_fmap. lia.
    + apply disjoint_singleton_l. by rewrite elem_of_list_to_set.
  - apply union_subseteq_r', union_subseteq_l.
Qed.

Lemma get_controls_adds_n_plus_one_keys_witness :
  ∃ ns' : dict,
    (ProcessorGroup.get_controls Sample.add_group 0 Sample.store).2 !! 0 = Some ns' ∧
    size (dom ns' ∖ dom Sample.inputs) = 2%nat ∧
    dom Sample.inputs ⊆ dom ns'.
Proof.
  apply (get_controls_adds_n_plus_one_keys
           [(Add.__init__ "add", ["x"; "y"])] "processor_group" 0 0 Sample.store _
           Sample.inputs).
  - apply (bool_decide_unpack _). vm_compute. exact I.
  - apply (bool_decide_unpack _). vm_compute. exact I.
  - intros k Hk.
    repeat (apply elem_of_cons in Hk as [->|Hk]; [reflexivity|]).
    by apply elem_of_nil in Hk.
  - reflexivity.
  - vm_compute. reflexivity.
Defined.

(** C3 as the specification states it fails when the input namespace has
    the group's name among its keys: the processor name "add" is unique,
    differs from the group's name and is no key of the input, and the run
    returns; but the group's entry replaces the value under a key that was
    there, and one key is new, not two. *)
Lemma get_controls_new_keys_counterexample :
  let d : DAG := [(Add.__init__ "add", ["x"; "y"])] in
  let run := ProcessorGroup.get_controls (ProcessorGroup.__init__ d "processor_group")
               0 [Sample.chained_inputs] in
  NoDup (names d) ∧
  ("processor_group" ∉ names d) ∧
  (∀ k, k ∈ names d → Sample.chained_inputs !! k = None) ∧
  run.1 = Ok 0%nat ∧
  ∃ ns' : dict,
    run.2 !! 0%nat = Some ns' ∧
    size (dom ns' ∖ dom Sample.chained_inputs) = 1%nat ∧
    (length d + 1)%nat = 2%nat.
Proof.
  split_and!.
  - apply (bool_decide_unpack _). vm_compute. exact I.
  - apply (bool_decide_unpack _). vm_compute. exact I.
  - intros k Hk.
    repeat (apply elem_of_cons in Hk as [->|Hk]; [reflexivity|]).
    by apply elem_of_nil in Hk.
  - vm_compute. reflexivity.
  - eexists. split_and!.
    + vm_compute. reflexivity.
    + vm_compute. reflexivity.
    + reflexivity.
Qed.

(** ** Runs of the loop, from the code to the relation and back *)

Lemma lookups_Ok_inv (l : loc) (keys : list string) (vs : list value) (h h1 : heap) :
  comprehension (λ key, core.nested_lookup key l) keys h = (Ok vs, h1) →
  h1 = h ∧
  Forall2 (λ key v, resolves h (Ref l) (core.split "/" key) v) keys vs.
Proof.
  intros H. split.
  { by rewrite <- (lookups_keep_store l keys h), H. }
  revert vs h1 H. induction keys as [|key keys IH]; intros vs h1 H.
  - apply mret_Ok_inv in H as [-> _]. constructor.
  - simpl in H. apply bind_Ok_inv in H as (v & h2 & Hv & H).
    unfold core.nested_lookup in Hv. injection Hv as Hv <-.
    apply bind_Ok_inv in H as (vs' & h3 & Hvs & [-> _]%mret_Ok_inv).
    constructor; [by apply descend_Ok|by eapply IH].
Qed.

Lemma input_tensors_Ok_inv (vs : list value) (inputs : list tensor) :
  mapM ProcessorGroup.input_tensor vs = Ok inputs → vs = Tensor <$> inputs.
Proof.
  revert inputs. induction vs as [|v vs IH]; intros inputs H.
  - by injection H as <-.
  - cbn [mapM mbind result_mbind result_bind] in H.
    destruct v as [t|e]; simpl in H; [|done].
    destruct (mapM ProcessorGroup.input_tensor vs) as [ts|e] eqn:E; simpl in H; [|done].
    injection H as <-. rewrite fmap_cons. f_equal. by apply IH.
Qed.

Lemma Spec_node_runs (l : loc) (n : Node) (h h' : heap) (d : dict) (s : tensor) :
  h !! l = Some d →
  Spec.node l n h = (Ok s, h') →
  node_runs l n h s h'.
Proof.
  intros Hl H. destruct n as [p keys]. unfold Spec.node in H.
  apply bind_Ok_inv in H as (vs & h1 & Hvs & H).
  apply lookups_Ok_inv in Hvs as [-> Hvs].
  apply bind_Ok_inv in H as (inputs & h1 & [Hin ->]%lift_Ok_inv & H).
  apply input_tensors_Ok_inv in Hin as ->.
  apply bind_Ok_inv in H as (controls & h1 & [Hc ->]%lift_Ok_inv & H).
  apply bind_Ok_inv in H as (c & h1 & [-> ->]%new_dict_inv & H).
  apply bind_Ok_inv in H as (s' & h1 & [Hs ->]%lift_Ok_inv & H).
  apply bind_Ok_inv in H as (e & h1 & [-> ->]%new_dict_inv & H).
  apply bind_Ok_inv in H as (u & h1 & (d' & Hd' & ->)%setitem_Ok_inv & H).
  apply mret_Ok_inv in H as [-> ->].
  rewrite <- (assoc_L (++)) in *. simpl in *.
  rewrite length_app in *. simpl in *.
  rewrite lookup_app_l in Hd' by (by eapply lookup_lt_Some).
  replace (length h + 1)%nat with (S (length h)) by lia.
  assert (d' = d) as -> by (by simplify_eq).
  apply node_runs_intro with (inputs := inputs); [done| |done..].
  by apply Forall2_fmap_r in Hvs.
Qed.

Lemma node_runs_namespace (l : loc) (n : Node) (h h' : heap) (s : tensor) :
  node_runs l n h s h' → is_Some (h !! l) ∧ is_Some (h' !! l).
Proof.
  intros [p keys h0 d inputs controls signal Hl _ _ _]. split; [by eexists|].
  destruct (node_store l (Processor.name p) h0 d (Tensor <$> controls)
              {[ "controls" := Ref (length h0); "signal" := Tensor signal ]} Hl)
    as (Hl' & _). by eexists.
Qed.

Lemma Spec_nodes_runs (l : loc) (ns : DAG) (prev r : option tensor)
    (h h' : heap) (d : dict) :
  h !! l = Some d →
  Spec.nodes l ns prev h = (Ok r, h') →
  ∃ signals, dag_runs l ns h signals h'.
Proof.
  revert prev h d. induction ns as [|n ns IH]; intros prev h d Hl H.
  - apply mret_Ok_inv in H as [_ ->]. exists []. constructor.
  - cbn [Spec.nodes] in H. apply bind_Ok_inv in H as (s & h1 & Hn & H).
    apply (Spec_node_runs _ _ _ _ _ _ Hl) in Hn.
    destruct (node_runs_namespace _ _ _ _ _ Hn) as [_ [d1 Hl1]].
    destruct (IH _ _ _ Hl1 H) as [signals Hruns].
    exists (s :: signals). by econstructor.
Qed.

Lemma for_each_runs (l : loc) (ns : DAG) (h h' : heap) (signals : list tensor) :
  dag_runs l ns h signals h' →
  for_each (ProcessorGroup.run_node l) ns h = (Ok (), h').
Proof.
  intros H. rewrite (for_each_Spec_nodes l ns None), bind_unfold.
  by rewrite (dag_runs_Spec _ _ _ _ _ None H).
Qed.

Lemma for_each_Ok_runs (l : loc) (ns : DAG) (h h' : heap) (d : dict) :
  h !! l = Some d →
  for_each (ProcessorGroup.run_node l) ns h = (Ok (), h') →
  ∃ signals, dag_runs l ns h signals h'.
Proof.
  intros Hl H. rewrite (for_each_Spec_nodes l ns None), bind_unfold in H.
  destruct (Spec.nodes l ns None h) as [[r|e] h1] eqn:E; [|done].
  injection H as ->. by eapply Spec_nodes_runs.
Qed.

Lemma dag_runs_app (l : loc) (ns1 ns2 : DAG) (h h1 h2 : heap)
    (ss1 ss2 : list tensor) :
  dag_runs l ns1 h ss1 h1 →
  dag_runs l ns2 h1 ss2 h2 →
  dag_runs l (ns1 ++ ns2) h (ss1 ++ ss2) h2.
Proof.
  induction 1 as [|n ns h0 h3 h4 s ss Hn _ IH]; intros H2; [done|].
  simpl. econstructor; [done|]. by apply IH.
Qed.

Lemma dag_runs_namespace (l : loc) (ns : DAG) (h h' : heap)
    (signals : list tensor) (d : dict) :
  h !! l = Some d →
  dag_runs l ns h signals h' →
  is_Some (h' !! l).
Proof.
  intros Hl H. revert d Hl.
  induction H as [|n ns h0 h1 h2 s ss Hn _ IH]; intros d Hl; [by eexists|].
  destruct (node_runs_namespace _ _ _ _ _ Hn) as [_ [d1 Hl1]]. by eapply IH.
Qed.

(** One pass of the loop body when the keys resolve to tensors: the first
    phase that raises ends it, before anything is put into the namespace. *)
Lemma run_node_resolved (l : loc) (p : Processor.t) (keys : list string)
    (h : heap) (d : dict) (inputs : list tensor) :
  h !! l = Some d →
  Forall2 (λ key t, resolves h (Ref l) (core.split "/" key) (Tensor t)) keys inputs →
  ProcessorGroup.run_node l (p, keys) h =
  match Processor.get_controls p inputs with
  | Raise e => (Raise e, h)
  | Ok controls =>
      match Processor.get_signal p controls with
      | Raise e => (Raise e, (h ++ [Tensor <$> controls])%list)
      | Ok signal =>
          (Ok (),
           <[l := <[Processor.name p := Ref (S (length h))]> d]>
             (h ++ [Tensor <$> controls;
                    {[ "controls" := Ref (length h); "signal" := Tensor signal ]}])%list)
      end
  end.
Proof.
  intros Hl Hkeys. unfold ProcessorGroup.run_node.
  rewrite bind_unfold, (lookups_Ok _ _ _ _ Hkeys).
  rewrite bind_unfold. unfold lift at 1. rewrite input_tensors_Ok.
  rewrite bind_unfold. unfold lift at 1.
  destruct (Processor.get_controls p inputs) as [controls|e]; [|done].
  rewrite bind_unfold. unfold new_dict at 1.
  rewrite bind_unfold. unfold lift at 1.
  destruct (Processor.get_signal p controls) as [signal|e]; [|done].
  rewrite bind_unfold. unfold new_dict at 1. unfold setitem.
  pose proof (lookup_lt_Some _ _ _ Hl) as Hlt.
  rewrite <- (assoc_L (++)). simpl.
  rewrite lookup_app_l by done. rewrite Hl.
  rewrite length_app. simpl.
  by replace (length h + 1)%nat with (S (length h)) by lia.
Qed.

(** An exception at a node ends [get_controls] and the invocation. *)
Lemma get_controls_node_raises (pre post : DAG) (n : Node) (name : string)
    (l : loc) (h h1 h2 : heap) (e : exn) :
  for_each (ProcessorGroup.run_node l) pre h = (Ok (), h1) →
  ProcessorGroup.run_node l n h1 = (Raise e, h2) →
  let g := ProcessorGroup.__init__ (pre ++ n :: post) name in
  ProcessorGroup.get_controls g l h = (Raise e, h2) ∧
  ProcessorGroup.call g l h = (Raise e, h2).
Proof.
  intros Hpre Hn g.
  assert (ProcessorGroup.get_controls g l h = (Raise e, h2)) as Hgc.
  { unfold ProcessorGroup.get_controls, g. simpl.
    rewrite bind_unfold, for_each_app, bind_unfold, Hpre.
    cbn [for_each]. by rewrite bind_unfold, Hn. }
  split; [done|]. unfold ProcessorGroup.call. by rewrite bind_unfold, Hgc.
Qed.

(** What a loop that ran to its end has done to the namespace. *)
Lemma for_each_Ok_facts (l : loc) (ns : DAG) (h h' : heap) (d : dict) :
  h !! l = Some d →
  for_each (ProcessorGroup.run_node l) ns h = (Ok (), h') →
  ∃ d', h' !! l = Some d' ∧
    (length h ≤ length h')%nat ∧
    (∀ i, i ≠ l → i < length h → h' !! i = h !! i) ∧
    dom d' = dom d ∪ list_to_set (names ns) ∧
    (∀ k, k ∉ names ns → d' !! k = d !! k) ∧
    (∀ k, k ∈ names ns → ∃ s, node_entry h' l d' k s).
Proof.
  intros Hl H. rewrite (for_each_Spec_nodes l ns None), bind_unfold in H.
  destruct (Spec.nodes l ns None h) as [[r|e] h1] eqn:E; [|done].
  injection H as ->.
  destruct (Spec_nodes_Ok _ _ _ _ _ _ _ Hl E)
    as (d' & ? & ? & ? & ? & ? & ? & _).
  by exists d'.
Qed.

(** [get_controls] after a run of the whole loop. *)
Lemma get_controls_of_run (d : DAG) (name : string) (l : loc)
    (h h1 : heap) (ns : dict) (signals : list tensor) (s : tensor) :
  h !! l = Some ns →
  dag_runs l d h signals h1 →
  last signals = Some s →
  ∃ ns1 : dict,
    h1 !! l = Some ns1 ∧
    ProcessorGroup.get_controls (ProcessorGroup.__init__ d name) l h =
    (Ok l, <[l := <[name := Ref (length h1)]> ns1]>
             (h1 ++ [{[ "signal" := Tensor s ]}])%list).
Proof.
  intros Hl Hruns Hlast.
  pose proof (dag_runs_Spec _ _ _ _ _ None Hruns) as Hnodes.
  rewrite Hlast in Hnodes.
  destruct (Spec_nodes_Ok _ _ _ _ _ _ _ Hl Hnodes) as (ns1 & Hl1 & _).
  exists ns1. split; [done|].
  rewrite (get_controls_Spec _ _ _ _ _ Hl). unfold Spec.get_controls.
  rewrite bind_unfold, Hnodes, bind_unfold. unfold new_dict at 1.
  rewrite bind_unfold. unfold setitem.
  by rewrite lookup_app_l, Hl1 by (by eapply lookup_lt_Some).
Qed.

(** [get_signal] on the namespace [get_controls] has returned. *)
Lemma get_signal_after (g : ProcessorGroup.t) (l : loc) (h1 : heap)
    (ns1 : dict) (s : tensor) :
  h1 !! l = Some ns1 →
  let h' := <[l := <[ProcessorGroup.name g := Ref (length h1)]> ns1]>
              (h1 ++ [{[ "signal" := Tensor s ]}])%list in
  ProcessorGroup.get_signal g l h' = (Ok (Tensor s), h').
Proof.
  intros Hl1 h'. pose proof (lookup_lt_Some _ _ _ Hl1) as Hlt.
  unfold ProcessorGroup.get_signal. rewrite bind_unfold. unfold getitem at 1.
  assert (h' !! l = Some (<[ProcessorGroup.name g := Ref (length h1)]> ns1)) as ->.
  { subst h'. apply list_lookup_insert_eq. rewrite length_app. simpl. lia. }
  rewrite lookup_insert_eq. unfold getitem.
  assert (h' !! length h1 = Some {[ "signal" := Tensor s ]}) as ->.
  { subst h'. rewrite list_lookup_insert_ne by lia.
    rewrite lookup_app_r by lia. by rewrite Nat.sub_diag. }
  by rewrite lookup_singleton_eq.
Qed.

(** ** The namespace after a run *)

(** A run of [get_controls] that returns: the loop has run to its end, and
    the entry of the group holds the signal read back from the entry under
    the name of the last processor. *)
Lemma get_controls_Ok_loop (d : DAG) (name : string) (l out : loc)
    (h h' : heap) (ns : dict) :
  h !! l = Some ns →
  ProcessorGroup.get_controls (ProcessorGroup.__init__ d name) l h = (Ok out, h') →
  out = l ∧
  ∃ (h1 : heap) (d1 : dict) (s : tensor),
    for_each (ProcessorGroup.run_node l) d h = (Ok (), h1) ∧
    h1 !! l = Some d1 ∧
    (∀ n, last d = Some n → node_entry h1 l d1 (Processor.name n.1) s) ∧
    h' = <[l := <[name := Ref (length h1)]> d1]>
           (h1 ++ [{[ "signal" := Tensor s ]}])%list.
Proof.
  intros Hl H. rewrite (get_controls_Spec _ _ _ _ _ Hl) in H.
  apply (Spec_get_controls_Ok _ _ _ _ _ _ _ Hl) in H
    as (-> & h1 & d1 & s & Hnodes & Hl1 & ->).
  split; [done|]. exists h1, d1, s. split_and!; [|done| |done].
  - by rewrite (for_each_Spec_nodes l d None), bind_unfold, Hnodes.
  - intros n Hn.
    destruct (Spec_nodes_Ok _ _ _ _ _ _ _ Hl Hnodes)
      as (d1' & Hl1' & _ & _ & _ & _ & _ & Hlast).
    rewrite Hn in Hlast. destruct Hlast as (s' & [= <-] & Hent).
    by simplify_eq.
Qed.

Lemma for_each_app_Ok_inv {A : Type} (body : A → M ()) (xs ys : list A)
    (h h2 : heap) :
  for_each body (xs ++ ys) h = (Ok (), h2) →
  ∃ h1, for_each body xs h = (Ok (), h1) ∧ for_each body ys h1 = (Ok (), h2).
Proof.
  rewrite for_each_app. intros ([] & h1 & H1 & H2)%bind_Ok_inv. eauto.
Qed.

(** A node of a loop that ran to its end, when its keys resolved to
    tensors: both phases of its processor returned, its two objects are in
    the store as it made them, and the namespace refers to its entry under
    its name unless a later node bears that name. *)
Lemma node_of_finished_loop (l : loc) (pre post : DAG) (p : Processor.t)
    (keys : list string) (h hp h1 : heap) (ns : dict) (inputs : list tensor) :
  h !! l = Some ns →
  for_each (ProcessorGroup.run_node l) (pre ++ (p, keys) :: post) h = (Ok (), h1) →
  for_each (ProcessorGroup.run_node l) pre h = (Ok (), hp) →
  Forall2 (λ key t, resolves hp (Ref l) (core.split "/" key) (Tensor t)) keys inputs →
  ∃ (controls : gmap string tensor) (signal : tensor) (d1 : dict),
    Processor.get_controls p inputs = Ok controls ∧
    Processor.get_signal p controls = Ok signal ∧
    h1 !! l = Some d1 ∧
    l < length hp ∧ (S (length hp) < length h1)%nat ∧
    h1 !! length hp = Some (Tensor <$> controls) ∧
    h1 !! S (length hp)
    = Some {[ "controls" := Ref (length hp); "signal" := Tensor signal ]} ∧
    (Processor.name p ∉ names post →
     d1 !! Processor.name p = Some (Ref (S (length hp)))).
Proof.
  intros Hl Hall Hpre Hkeys.
  apply for_each_app_Ok_inv in Hall as (hp' & Hpre' & Hrest).
  rewrite Hpre in Hpre'. injection Hpre' as <-.
  cbn [for_each] in Hrest. apply bind_Ok_inv in Hrest as ([] & hn & Hn & Hpost).
  destruct (for_each_Ok_facts _ _ _ _ _ Hl Hpre) as (dp & Hlp & _).
  pose proof (lookup_lt_Some _ _ _ Hlp) as Hlt.
  rewrite (run_node_resolved l p keys hp dp inputs Hlp Hkeys) in Hn.
  destruct (Processor.get_controls p inputs) as [controls|e1] eqn:Hc;
    [|discriminate Hn].
  destruct (Processor.get_signal p controls) as [signal|e2] eqn:Hs;
    [|discriminate Hn].
  injection Hn as Hn.
  destruct (node_store l (Processor.name p) hp dp (Tensor <$> controls)
              {[ "controls" := Ref (length hp); "signal" := Tensor signal ]} Hlp)
    as (Hln & He & Hne & Hlen & _).
  rewrite Hn in Hln, He, Hlen.
  assert (hn !! length hp = Some (Tensor <$> controls)) as Hc0.
  { rewrite <- Hn. rewrite list_lookup_insert_ne by lia.
    rewrite lookup_app_r by lia. by rewrite Nat.sub_diag. }
  destruct (for_each_Ok_facts _ _ _ _ _ Hln Hpost)
    as (d1 & Hl1 & Hlen1 & Hframe & _ & Hkeep & _).
  exists controls, signal, d1. split_and!; [done..|lia| | |].
  - rewrite Hframe by lia. done.
  - rewrite Hframe by lia. done.
  - intros Hlater. rewrite (Hkeep _ Hlater). by rewrite lookup_insert_eq.
Qed.

(** C9, for the entries that are not replaced.  [get_controls] works on the
    caller's dictionary itself: the location it returns is the one it was
    given.  After the call the object holds under the group's name the
    group's entry [{'signal': s}], and under every node's name an entry
    with a ['signal'], and with ['controls'] unless the name is the
    group's; its other keys are as the caller left them, and so are the
    other objects of the store.  The entries are the nodes' own: for a
    node whose keys resolved to the tensors [inputs] when its turn came,
    its processor has returned [controls] for them and [signal] for these
    controls, and unless a later node or the group bears its name, the
    entry under it is [{'controls': controls, 'signal': signal}].  The
    signal [s] of the group's entry is the signal of the last node. *)
Theorem get_controls_mutates_dag_inputs (d : DAG) (name : string)
    (l out : loc) (h h' : heap) (ns : dict) :
  h !! l = Some ns →
  ProcessorGroup.get_controls (ProcessorGroup.__init__ d name) l h = (Ok out, h') →
  out = l ∧
  ∃ (ns' : dict) (g : loc) (s : tensor),
    h' !! l = Some ns' ∧
    ns' !! name = Some (Ref g) ∧ g ≠ l ∧
    h' !! g = Some {[ "signal" := Tensor s ]} ∧
    (∀ k, k ∈ names d →
       ∃ (e : loc) (entry : dict),
         ns' !! k = Some (Ref e) ∧ e ≠ l ∧ h' !! e = Some entry ∧
         is_Some (entry !! "signal") ∧
         (k ≠ name → is_Some (entry !! "controls"))) ∧
    (∀ (pre post : DAG) (p : Processor.t) (keys : list string)
       (hp : heap) (inputs : list tensor),
       d = (pre ++ (p, keys) :: post)%list →
       for_each (ProcessorGroup.run_node l) pre h = (Ok (), hp) →
       Forall2 (λ key t, resolves hp (Ref l) (core.split "/" key) (Tensor t))
               keys inputs →
       ∃ (controls : gmap string tensor) (signal : tensor),
         Processor.get_controls p inputs = Ok controls ∧
         Processor.get_signal p controls = Ok signal ∧
         (post = [] → s = signal) ∧
         (Processor.name p ∉ names post → Processor.name p ≠ name →
          ∃ e c : loc,
            ns' !! Processor.name p = Some (Ref e) ∧ e ≠ l ∧ c ≠ l ∧
            h' !! e = Some {[ "controls" := Ref c; "signal" := Tensor signal ]} ∧
            h' !! c = Some (Tensor <$> controls))) ∧
    (∀ k, k ∉ name :: names d → ns' !! k = ns !! k) ∧
    (∀ i, i ≠ l → i < length h → h' !! i = h !! i).
Proof.
  intros Hl H.
  destruct (get_controls_Ok_loop _ _ _ _ _ _ _ Hl H)
    as (-> & h1 & d1 & s & Hloop & Hl1 & Hlast & ->).
  destruct (for_each_Ok_facts _ _ _ _ _ Hl Hloop)
    as (d1' & Hl1' & Hlen & Hframe & _ & Hkeep & Hent).
  assert (d1' = d1) as -> by (by simplify_eq).
  pose proof (lookup_lt_Some _ _ _ Hl1) as Hlt.
  assert (∀ i x, i ≠ l → h1 !! i = Some x →
            (<[l := <[name := Ref (length h1)]> d1]>
               (h1 ++ [{[ "signal" := Tensor s ]}])%list) !! i = Some x) as Hold.
  { intros i x Hi Hx. rewrite list_lookup_insert_ne by done.
    by apply lookup_app_l_Some. }
  assert ((<[l := <[name := Ref (length h1)]> d1]>
             (h1 ++ [{[ "signal" := Tensor s ]}])%list) !! length h1
          = Some {[ "signal" := Tensor s ]}) as Hg.
  { rewrite list_lookup_insert_ne by lia.
    rewrite lookup_app_r by lia. by rewrite Nat.sub_diag. }
  split; [done|]. exists (<[name := Ref (length h1)]> d1), (length h1), s.
  split_and!.
  - apply list_lookup_insert_eq. rewrite length_app. simpl. lia.
  - by rewrite lookup_insert_eq.
  - lia.
  - done.
  - intros k Hk. destruct (decide (k = name)) as [->|Hne].
    + exists (length h1), {[ "signal" := Tensor s ]}.
      rewrite lookup_insert_eq, lookup_singleton_eq.
      split_and!; [done|lia|done|by eexists|done].
    + destruct (Hent k Hk) as (s0 & e0 & c0 & Hk0 & Hne0 & He0).
      exists e0, {[ "controls" := Ref c0; "signal" := Tensor s0 ]}.
      rewrite lookup_insert_ne by done.
      split_and!; [done|done|by apply Hold| |].
      * rewrite lookup_insert_ne by done. rewrite lookup_singleton_eq. by eexists.
      * intros _. rewrite lookup_insert_eq. by eexists.
  - intros pre post p keys hp inputs -> Hpre Hkeys.
    destruct (node_of_finished_loop _ _ _ _ _ _ _ _ _ _ Hl Hloop Hpre Hkeys)
      as (controls & signal & d1' & Hc & Hs & Hl1'' & Hlp & Hlen' & Hcobj & Heobj & Hname1).
    assert (d1' = d1) as -> by (by simplify_eq).
    exists controls, signal. split_and!; [done|done| |].
    + intros ->. destruct (Hlast (p, keys)) as (e & c & Hk & _ & He).
      { apply last_snoc. }
      simpl in Hk. rewrite Hname1 in Hk by (by intros ?%elem_of_nil).
      injection Hk as <-. rewrite Heobj in He.
      apply (inj Some) in He.
      apply (f_equal (λ m : dict, m !! "signal")) in He.
      rewrite !lookup_insert_ne, !lookup_singleton_eq in He by done.
      by simplify_eq.
    + intros Hlater Hname.
      exists (S (length hp)), (length hp). split_and!; [|lia|lia| |].
      * rewrite lookup_insert_ne by done. by apply Hname1.
      * apply Hold; [lia|done].
      * apply Hold; [lia|done].
  - intros k Hk. rewrite not_elem_of_cons in Hk. destruct Hk as [Hk1 Hk2].
    rewrite lookup_insert_ne by done. by apply Hkeep.
  - intros i Hi Hi'. rewrite list_lookup_insert_ne by done.
    rewrite lookup_app_l by lia. by apply Hframe.
Qed.

Lemma get_controls_mutates_dag_inputs_witness :
  0%nat = 0%nat ∧
  ∃ (ns' : dict) (g : loc) (s : tensor),
    Fixture.after_chain !! 0%nat = Some ns' ∧
    ns' !! "processor_group" = Some (Ref g) ∧ g ≠ 0%nat ∧
    Fixture.after_chain !! g = Some {[ "signal" := Tensor s ]} ∧
    (∀ k, k ∈ names Fixture.chain →
       ∃ (e : loc) (entry : dict),
         ns' !! k = Some (Ref e) ∧ e ≠ 0%nat ∧
         Fixture.after_chain !! e = Some entry ∧
         is_Some (entry !! "signal") ∧
         (k ≠ "processor_group" → is_Some (entry !! "controls"))) ∧
    (∀ (pre post : DAG) (p : Processor.t) (keys : list string)
       (hp : heap) (inputs : list tensor),
       Fixture.chain = (pre ++ (p, keys) :: post)%list →
       for_each (ProcessorGroup.run_node 0) pre Sample.store = (Ok (), hp) →
       Forall2 (λ key t, resolves hp (Ref 0) (core.split "/" key) (Tensor t))
               keys inputs →
       ∃ (controls : gmap string tensor) (signal : tensor),
         Processor.get_controls p inputs = Ok controls ∧
         Processor.get_signal p controls = Ok signal ∧
         (post = [] → s = signal) ∧
         (Processor.name p ∉ names post → Processor.name p ≠ "processor_group" →
          ∃ e c : loc,
            ns' !! Processor.name p = Some (Ref e) ∧ e ≠ 0%nat ∧ c ≠ 0%nat ∧
            Fixture.after_chain !! e
            = Some {[ "controls" := Ref c; "signal" := Tensor signal ]} ∧
            Fixture.after_chain !! c = Some (Tensor <$> controls))) ∧
    (∀ k, k ∉ "processor_group" :: names Fixture.chain →
          ns' !! k = Sample.inputs !! k) ∧
    (∀ i, i ≠ 0%nat → i < length Sample.store →
          Fixture.after_chain !! i = Sample.store !! i).
Proof.
  apply (get_controls_mutates_dag_inputs
           Fixture.chain "processor_group" 0 0 Sample.store Fixture.after_chain
           Sample.inputs).
  - reflexivity.
  - vm_compute. reflexivity.
Defined.

(** The second node of the chain is such a node: the first node runs from
    the sample store, and in the store it leaves the keys "add/signal" and
    "x" resolve to the sum it computed and to the input. *)
Example chain_second_node_resolves :
  Fixture.chain = ([Sample.first_node] ++ Fixture.chained_node :: [])%list ∧
  for_each (ProcessorGroup.run_node 0) [Sample.first_node] Sample.store
  = (Ok (), Fixture.after_add) ∧
  Forall2 (λ key t, resolves Fixture.after_add (Ref 0) (core.split "/" key) (Tensor t))
          ["add/signal"; "x"] [Sample.sum; Fixture.x].
Proof.
  split_and!.
  - reflexivity.
  - vm_compute. reflexivity.
  - repeat constructor; apply descend_Ok; vm_compute; reflexivity.
Qed.

(** C9 as the specification states it fails wherever an entry is replaced.
    For a node named as the group is, the group's entry takes the place of
    the node's, and under the node's name there are no controls after the
    call.  For two nodes of one name, here "add" on "x" and "y" and then
    "add" on "x" and "x", the second entry takes the place of the first:
    the namespace has one key for both, and the entry under it holds the
    signal of the second node, not the one the first node computed. *)
Lemma get_controls_entries_counterexample :
  let run := ProcessorGroup.get_controls
               (ProcessorGroup.__init__ [(Add.__init__ "add", ["x"; "y"])] "add")
               0 Sample.store in
  let run' := ProcessorGroup.get_controls
                (ProcessorGroup.__init__ [Sample.first_node; Fixture.second_add]
                   "processor_group")
                0 Sample.store in
  (run.1 = Ok 0%nat ∧
   ∃ (ns' : dict) (g : loc) (entry : dict),
     run.2 !! 0%nat = Some ns' ∧
     ns' !! "add" = Some (Ref g) ∧
     run.2 !! g = Some entry ∧
     entry !! "controls" = None) ∧
  (run'.1 = Ok 0%nat ∧
   Processor.call (Add.__init__ "add") [Fixture.x; Fixture.y] = Ok Sample.sum ∧
   dom <$> run'.2 !! 0%nat
   = Some ({[ "x"; "y"; "add"; "processor_group" ]} : gset string) ∧
   run'.2 !! 0%nat ≫= (.!! "add") = Some (Ref 4) ∧
   run'.2 !! 4%nat
   = Some {[ "controls" := Ref 3; "signal" := Tensor Fixture.double ]} ∧
   Fixture.double ≠ Sample.sum).
Proof.
  split.
  - split; [vm_compute; reflexivity|].
    do 3 eexists. split_and!; vm_compute; reflexivity.
  - split_and!; try (vm_compute; reflexivity).
    intros [= H _]. lra.
Qed.

(** C4. When the nodes before a node have run and one of that node's keys
    does not resolve in the namespace as they left it (a level or the last
    key is missing, as for the name of a processor that has not run),
    [get_controls] raises KeyError, the spec's MissingInput, at that node,
    and so does the invocation of the group: there is no result, and no
    value stands in for the missing one. *)
Theorem unresolved_key_raises (pre post : DAG) (p : Processor.t)
    (keys : list string) (key name : string) (l : loc) (h h1 : heap) :
  for_each (ProcessorGroup.run_node l) pre h = (Ok (), h1) →
  key ∈ keys →
  (¬ ∃ v, resolves h1 (Ref l) (core.split "/" key) v) →
  let g := ProcessorGroup.__init__ (pre ++ (p, keys) :: post) name in
  ProcessorGroup.get_controls g l h = (Raise KeyError, h1) ∧
  ProcessorGroup.call g l h = (Raise KeyError, h1).
Proof.
  intros Hpre Hin Hno g.
  assert (ProcessorGroup.get_controls g l h = (Raise KeyError, h1)) as Hgc.
  { unfold ProcessorGroup.get_controls, g. simpl.
    rewrite bind_unfold, for_each_app, bind_unfold, Hpre. simpl.
    rewrite !bind_unfold. by rewrite (lookups_raise _ _ _ _ Hin Hno). }
  split; [done|].
  unfold ProcessorGroup.call. by rewrite bind_unfold, Hgc.
Qed.

Lemma unresolved_key_raises_witness :
  let h1 := (for_each (ProcessorGroup.run_node 0) [Sample.first_node] Sample.store).2 in
  let g := ProcessorGroup.__init__
             ([Sample.first_node] ++ Sample.second_node :: []) "processor_group" in
  ProcessorGroup.get_controls g 0 Sample.store = (Raise KeyError, h1) ∧
  ProcessorGroup.call g 0 Sample.store = (Raise KeyError, h1).
Proof.
  apply (unresolved_key_raises
           [Sample.first_node] [] (Add.__init__ "sum") ["add/signal"; "mix/signal"]
           "mix/signal" "processor_group" 0 Sample.store).
  - vm_compute. reflexivity.
  - apply (bool_decide_unpack _). vm_compute. exact I.
  - apply unresolved_KeyError. vm_compute. reflexivity.
Defined.

(** ** Mix *)

(** C5. For signals that have a time axis, of lengths [n1] and [n2]:
    [Mix.get_controls] raises ValueError (the spec's InvalidArgument) when
    the lengths differ; with equal lengths it passes the check and returns
    the controls, the two signals and the level as the resampling returns
    it; and, the resampling raising no ValueError of its own, it raises
    ValueError exactly when the lengths differ. *)
Theorem Mix_get_controls_checks_lengths
    (resample : tensor → nat → result tensor)
    (signal_one signal_two nn_out_mix_level : tensor) (n1 n2 : nat) :
  shape signal_one !! 1%nat = Some n1 →
  shape signal_two !! 1%nat = Some n2 →
  let run := Mix.get_controls resample [signal_one; signal_two; nn_out_mix_level] in
  (n1 ≠ n2 → run = Raise ValueError) ∧
  (n1 = n2 →
   ∀ mix_level : tensor,
     resample (tmap Mix.sigmoid nn_out_mix_level) n1 = Ok mix_level →
     run = Ok (Mix.controls signal_one signal_two mix_level)) ∧
  (resample (tmap Mix.sigmoid nn_out_mix_level) n1 ≠ Raise ValueError →
   (run = Raise ValueError ↔ n1 ≠ n2)).
Proof.
  intros H1 H2 run. subst run. unfold Mix.get_controls, shape_at.
  rewrite H1, H2. simpl.
  destruct (decide (n1 ≠ n2)) as [Hne|Heq].
  - split_and!; [done|done|]. intros _. done.
  - split_and!.
    + done.
    + intros _ mix_level Hr. by rewrite Hr.
    + intros Hr. split; [|done].
      destruct (resample _ n1) as [mix_level|e]; simpl; [done|].
      intros [= ->]. done.
Qed.

Lemma Mix_get_controls_checks_lengths_witness :
  let run := Mix.get_controls Sample.resample_same
               [Sample.signal_one; Sample.signal_two; Sample.level] in
  (2%nat ≠ 2%nat → run = Raise ValueError) ∧
  (2%nat = 2%nat →
   ∀ mix_level : tensor,
     Sample.resample_same (tmap Mix.sigmoid Sample.level) 2 = Ok mix_level →
     run = Ok (Mix.controls Sample.signal_one Sample.signal_two mix_level)) ∧
  (Sample.resample_same (tmap Mix.sigmoid Sample.level) 2 ≠ Raise ValueError →
   (run = Raise ValueError ↔ 2%nat ≠ 2%nat)).
Proof.
  apply (Mix_get_controls_checks_lengths Sample.resample_same
           Sample.signal_one Sample.signal_two Sample.level 2 2);
    reflexivity.
Defined.

(** Two and three time steps: the check refuses them. *)
Example Mix_get_controls_lengths_differ :
  Mix.get_controls Sample.resample_same
    [Sample.signal_one; Sample.longer_signal; Sample.level] = Raise ValueError.
Proof. reflexivity. Qed.

Lemma Mix_keywords (signal_one signal_two mix_level : tensor) :
  bind_keywords ["signal_one"; "signal_two"; "mix_level"]
    (Mix.controls signal_one signal_two mix_level)
  = Ok [signal_one; signal_two; mix_level].
Proof. reflexivity. Qed.

(** [Mix.get_signal] on three tensors of one shape. *)
Lemma Mix_get_signal_same_shape (signal_one signal_two mix_level : tensor) :
  shape signal_one = shape mix_level →
  shape signal_two = shape mix_level →
  well_shaped signal_one → well_shaped signal_two → well_shaped mix_level →
  Mix.get_signal (Mix.controls signal_one signal_two mix_level) =
  Ok {| shape := shape mix_level;
        data := zip_with Rplus
                  (zip_with Rmult (data (Mix.mix_level_one mix_level)) (data signal_one))
                  (zip_with Rmult (data (Mix.mix_level_two mix_level)) (data signal_two)) |}.
Proof.
  intros Hs1 Hs2 Hw1 Hw2 Hwm. unfold Mix.get_signal.
  rewrite Mix_keywords. simpl.
  assert (well_shaped (Mix.mix_level_one mix_level)) as Hwone
    by (by do 2 apply tmap_well_shaped).
  assert (well_shaped (Mix.mix_level_two mix_level)) as Hwtwo
    by (by do 4 apply tmap_well_shaped).
  unfold tmul. rewrite (tzip_same_shape _ (Mix.mix_level_one mix_level)) by done.
  simpl. rewrite (tzip_same_shape _ (Mix.mix_level_two mix_level)) by done.
  simpl. unfold tadd. rewrite tzip_same_shape; [done..| |].
  - by apply (tzip_well_shaped Rmult (Mix.mix_level_one mix_level)).
  - by apply (tzip_well_shaped Rmult (Mix.mix_level_two mix_level)).
Qed.

(** Element [i] of that result. *)
Lemma Mix_get_signal_element (signal_one signal_two mix_level : tensor)
    (i : nat) (x a b : R) :
  data mix_level !! i = Some x →
  data signal_one !! i = Some a →
  data signal_two !! i = Some b →
  zip_with Rplus
    (zip_with Rmult (data (Mix.mix_level_one mix_level)) (data signal_one))
    (zip_with Rmult (data (Mix.mix_level_two mix_level)) (data signal_two)) !! i
  = Some (sqrt (Rabs x) * a + (1 - sqrt (Rabs (x - 1))) * b)%R.
Proof.
  intros Hx Ha Hb. unfold Mix.mix_level_one, Mix.mix_level_two. simpl.
  rewrite !lookup_zip_with, !list_lookup_fmap, Hx, Ha, Hb. done.
Qed.

(** C6. On two signals and a level of one shape, [Mix.get_signal] returns
    the tensor of that shape whose element is
    [sqrt |x| * a + (1 - sqrt |x - 1|) * b] for the elements [x] of the
    level, [a] of the first and [b] of the second signal at the same place;
    with a level that is 1/2 everywhere that is
    [sqrt (1/2) * a + (1 - sqrt (1/2)) * b]. *)
Theorem Mix_get_signal_formula (signal_one signal_two mix_level : tensor) :
  shape signal_one = shape mix_level →
  shape signal_two = shape mix_level →
  well_shaped signal_one → well_shaped signal_two → well_shaped mix_level →
  ∃ out : tensor,
    Mix.get_signal (Mix.controls signal_one signal_two mix_level) = Ok out ∧
    shape out = shape mix_level ∧
    length (data out) = length (data mix_level) ∧
    (∀ (i : nat) (x a b : R),
       data mix_level !! i = Some x →
       data signal_one !! i = Some a →
       data signal_two !! i = Some b →
       data out !! i = Some (sqrt (Rabs x) * a + (1 - sqrt (Rabs (x - 1))) * b)%R) ∧
    (Forall (λ x, x = (1 / 2)%R) (data mix_level) →
     ∀ (i : nat) (a b : R),
       data signal_one !! i = Some a →
       data signal_two !! i = Some b →
       data out !! i = Some (sqrt (1 / 2) * a + (1 - sqrt (1 / 2)) * b)%R).
Proof.
  intros Hs1 Hs2 Hw1 Hw2 Hwm. eexists.
  split; [by apply Mix_get_signal_same_shape|]. cbn [data shape].
  assert (length (data signal_one) = length (data mix_level)) as Hlen1
    by (unfold well_shaped in *; congruence).
  assert (length (data signal_two) = length (data mix_level)) as Hlen2
    by (unfold well_shaped in *; congruence).
  split_and!.
  - done.
  - unfold Mix.mix_level_one, Mix.mix_level_two, tmap. cbn [data shape].
    rewrite !length_zip_with, !length_map. lia.
  - intros i x a b. apply Mix_get_signal_element.
  - intros Hhalf i a b Ha Hb.
    destruct (lookup_lt_is_Some_2 (data mix_level) i) as [x Hx].
    { rewrite <- Hlen1. by eapply lookup_lt_Some. }
    rewrite (Mix_get_signal_element _ _ _ _ _ _ _ Hx Ha Hb).
    rewrite (Forall_lookup_1 _ _ _ _ Hhalf Hx).
    replace (1 / 2 - 1)%R with (- (1 / 2))%R by lra.
    by rewrite Rabs_Ropp, Rabs_pos_eq by lra.
Qed.

Lemma Mix_get_signal_formula_witness :
  ∃ out : tensor,
    Mix.get_signal (Mix.controls Sample.signal_one Sample.signal_two Sample.level)
    = Ok out ∧
    shape out = shape Sample.level ∧
    length (data out) = length (data Sample.level) ∧
    (∀ (i : nat) (x a b : R),
       data Sample.level !! i = Some x →
       data Sample.signal_one !! i = Some a →
       data Sample.signal_two !! i = Some b →
       data out !! i = Some (sqrt (Rabs x) * a + (1 - sqrt (Rabs (x - 1))) * b)%R) ∧
    (Forall (λ x, x = (1 / 2)%R) (data Sample.level) →
     ∀ (i : nat) (a b : R),
       data Sample.signal_one !! i = Some a →
       data Sample.signal_two !! i = Some b →
       data out !! i = Some (sqrt (1 / 2) * a + (1 - sqrt (1 / 2)) * b)%R).
Proof.
  apply (Mix_get_signal_formula Sample.signal_one Sample.signal_two Sample.level);
    reflexivity.
Defined.

(** The weights at the two ends of the range of the level. *)
Lemma mix_level_one_zeros (s : list nat) :
  data (Mix.mix_level_one (full s 0)) = replicate (numel s) 0%R.
Proof.
  unfold Mix.mix_level_one, tmap, full. cbn [data shape].
  by rewrite !fmap_replicate, Rabs_R0, sqrt_0.
Qed.

Lemma mix_level_one_ones (s : list nat) :
  data (Mix.mix_level_one (full s 1)) = replicate (numel s) 1%R.
Proof.
  unfold Mix.mix_level_one, tmap, full. cbn [data shape].
  by rewrite !fmap_replicate, Rabs_R1, sqrt_1.
Qed.

Lemma mix_level_two_zeros (s : list nat) :
  data (Mix.mix_level_two (full s 0)) = replicate (numel s) 0%R.
Proof.
  unfold Mix.mix_level_two, tmap, full. cbn [data shape].
  rewrite !fmap_replicate. f_equal.
  replace (0 - 1)%R with (Ropp 1) by lra.
  rewrite Rabs_Ropp, Rabs_R1, sqrt_1. lra.
Qed.

Lemma mix_level_two_ones (s : list nat) :
  data (Mix.mix_level_two (full s 1)) = replicate (numel s) 1%R.
Proof.
  unfold Mix.mix_level_two, tmap, full. cbn [data shape].
  rewrite !fmap_replicate. f_equal.
  replace (1 - 1)%R with 0%R by lra.
  rewrite Rabs_R0, sqrt_0. lra.
Qed.

Lemma full_well_shaped (s : list nat) (x : R) : well_shaped (full s x).
Proof. unfold well_shaped, full. simpl. apply length_replicate. Qed.

Lemma scale_by_zero (d : list R) (n : nat) :
  length d = n → zip_with Rmult (replicate n 0%R) d = replicate n 0%R.
Proof.
  intros <-. rewrite zip_with_replicate_l by done.
  apply const_fmap. intros _ x _. lra.
Qed.

Lemma scale_by_one (d : list R) (n : nat) :
  length d = n → zip_with Rmult (replicate n 1%R) d = d.
Proof.
  intros <-. rewrite zip_with_replicate_l by done.
  rewrite <- (list_fmap_id d) at 2. apply list_fmap_ext. intros _ x _. simpl. lra.
Qed.

Lemma add_zeros_r (d : list R) (n : nat) :
  length d = n → zip_with Rplus d (replicate n 0%R) = d.
Proof.
  intros <-. rewrite zip_with_replicate_r by done.
  rewrite <- (list_fmap_id d) at 2. apply list_fmap_ext. intros _ x _. simpl. lra.
Qed.

(** What [Mix.get_signal] returns at the two ends: silence at level 0, the
    sum of the two signals at level 1. *)
Lemma Mix_get_signal_level_zero (signal_one signal_two : tensor) (s : list nat) :
  shape signal_one = s → shape signal_two = s →
  well_shaped signal_one → well_shaped signal_two →
  Mix.get_signal (Mix.controls signal_one signal_two (full s 0)) = Ok (full s 0).
Proof.
  intros Hs1 Hs2 Hw1 Hw2.
  rewrite Mix_get_signal_same_shape by (done || apply full_well_shaped).
  rewrite mix_level_one_zeros, mix_level_two_zeros.
  unfold well_shaped in *. rewrite Hs1 in Hw1. rewrite Hs2 in Hw2.
  rewrite !scale_by_zero by done.
  by rewrite add_zeros_r by apply length_replicate.
Qed.

Lemma Mix_get_signal_level_one (signal_one signal_two : tensor) (s : list nat) :
  shape signal_one = s → shape signal_two = s →
  well_shaped signal_one → well_shaped signal_two →
  Mix.get_signal (Mix.controls signal_one signal_two (full s 1)) =
  Ok {| shape := s; data := zip_with Rplus (data signal_one) (data signal_two) |}.
Proof.
  intros Hs1 Hs2 Hw1 Hw2.
  rewrite Mix_get_signal_same_shape by (done || apply full_well_shaped).
  rewrite mix_level_one_ones, mix_level_two_ones.
  unfold well_shaped in *. rewrite Hs1 in Hw1. rewrite Hs2 in Hw2.
  by rewrite !scale_by_one by done.
Qed.

(** C7, as the code has it.  The weight of [signal_one] is [sqrt |x|]: with
    the level 0 everywhere [signal_one] does not reach the output, which is
    the same whatever [signal_one] is; with the level 1 everywhere it passes
    with weight 1, so that the output is [signal_one] unchanged when
    [signal_two] is silent.  Nothing is said here of the share of
    [signal_two] at the two ends. *)
Theorem Mix_get_signal_weight_of_signal_one
    (signal_one signal_one' signal_two : tensor) (s : list nat) :
  shape signal_one = s → shape signal_one' = s → shape signal_two = s →
  well_shaped signal_one → well_shaped signal_one' → well_shaped signal_two →
  Mix.get_signal (Mix.controls signal_one signal_two (full s 0)) =
  Mix.get_signal (Mix.controls signal_one' signal_two (full s 0)) ∧
  Mix.get_signal (Mix.controls signal_one (full s 0) (full s 1)) = Ok signal_one.
Proof.
  intros Hs1 Hs1' Hs2 Hw1 Hw1' Hw2. split.
  - by rewrite !Mix_get_signal_level_zero.
  - rewrite (Mix_get_signal_level_one _ _ s) by (done || apply full_well_shaped).
    unfold full. cbn [data]. unfold well_shaped in Hw1.
    rewrite add_zeros_r by congruence.
    destruct signal_one. simpl in *. by subst.
Qed.

Lemma Mix_get_signal_weight_of_signal_one_witness :
  Mix.get_signal (Mix.controls Sample.signal_one Sample.signal_two (full [1; 2]%nat 0)) =
  Mix.get_signal (Mix.controls Sample.level Sample.signal_two (full [1; 2]%nat 0)) ∧
  Mix.get_signal (Mix.controls Sample.signal_one (full [1; 2]%nat 0) (full [1; 2]%nat 1))
  = Ok Sample.signal_one.
Proof.
  apply (Mix_get_signal_weight_of_signal_one
           Sample.signal_one Sample.level Sample.signal_two [1; 2]%nat);
    reflexivity.
Defined.

(** C7 as the specification states it fails: for the signals [[1, 2]] and
    [[3, 5]], the level 0 everywhere gives [[0, 0]] and not the first
    signal, the level 1 everywhere gives [[4, 7]] and not the second. *)
Lemma Mix_get_signal_ends_counterexample :
  Mix.get_signal (Mix.controls Sample.signal_one Sample.signal_two (full [1; 2]%nat 0))
  ≠ Ok Sample.signal_one ∧
  Mix.get_signal (Mix.controls Sample.signal_one Sample.signal_two (full [1; 2]%nat 1))
  ≠ Ok Sample.signal_two.
Proof.
  split.
  - rewrite Mix_get_signal_level_zero by reflexivity.
    intros [= H _]. lra.
  - rewrite (Mix_get_signal_level_one _ _ [1; 2]%nat) by reflexivity.
    intros [= H _]. lra.
Qed.

(** A square root of a magnitude is a square root indeed. *)
Lemma sqrt_Rabs_sqr (x : R) :
  (0 <= sqrt (Rabs x) ∧ sqrt (Rabs x) * sqrt (Rabs x) = Rabs x)%R.
Proof. split; [apply sqrt_pos|apply sqrt_sqrt, Rabs_pos]. Qed.

(** A silent second signal adds nothing, whatever its weight. *)
Lemma silent_second_signal (ws d : list R) (n : nat) :
  length ws = n → length d = n →
  zip_with Rplus d (zip_with Rmult ws (replicate n 0%R)) = d.
Proof.
  revert d n. induction ws as [|w ws IH]; intros [|a d] n Hws Hd;
    simpl in *; subst n; try done.
  simpl. f_equal; [lra|]. apply IH; [done|]. by injection Hd.
Qed.

(** C10. [Mix.get_signal] asks nothing of the values of the level: for
    signals and a level of one shape it returns a tensor of that shape,
    whatever the level, inside [[0, 1]] or not.  Every element of the result
    is [w1 * a + w2 * b], where [w1] is the square root of the magnitude of
    the level [x] there and [1 - w2] the square root of the magnitude of
    [x - 1]: both are square roots of numbers that are not negative.  For a
    negative level the two weights are those of its magnitude [- x], namely
    [sqrt (- x)] and [1 - sqrt (1 + - x)], and for a level above 1 they are
    [sqrt x] and [1 - sqrt (x - 1)].  The first signal is weighted by a
    level as by its magnitude: with a silent second signal the result is the
    same for both. *)
Theorem Mix_get_signal_total_in_mix_level (signal_one signal_two mix_level : tensor) :
  shape signal_one = shape mix_level →
  shape signal_two = shape mix_level →
  well_shaped signal_one → well_shaped signal_two → well_shaped mix_level →
  (∃ out : tensor,
     Mix.get_signal (Mix.controls signal_one signal_two mix_level) = Ok out ∧
     shape out = shape mix_level ∧ well_shaped out ∧
     ∀ (i : nat) (x a b : R),
       data mix_level !! i = Some x →
       data signal_one !! i = Some a →
       data signal_two !! i = Some b →
       ∃ w1 w2 : R,
         data out !! i = Some (w1 * a + w2 * b)%R ∧
         (0 <= w1 ∧ w1 * w1 = Rabs x)%R ∧
         (w2 <= 1 ∧ (1 - w2) * (1 - w2) = Rabs (x - 1))%R ∧
         (x < 0 → w1 = sqrt (- x) ∧ w2 = 1 - sqrt (1 + - x))%R ∧
         (1 < x → w1 = sqrt x ∧ w2 = 1 - sqrt (x - 1))%R) ∧
  Mix.get_signal
    (Mix.controls signal_one (full (shape mix_level) 0) (tmap Rabs mix_level)) =
  Mix.get_signal (Mix.controls signal_one (full (shape mix_level) 0) mix_level).
Proof.
  intros Hs1 Hs2 Hw1 Hw2 Hwm. split.
  - eexists. split; [by apply Mix_get_signal_same_shape|].
    split; [done|]. split.
    { unfold well_shaped in *. cbn [data shape].
      unfold Mix.mix_level_one, Mix.mix_level_two, tmap. cbn [data shape].
      rewrite !length_zip_with, !length_fmap.
      rewrite Hs1 in Hw1. rewrite Hs2 in Hw2. lia. }
    cbn [data]. intros i x a b Hx Ha Hb.
    exists (sqrt (Rabs x)), (1 - sqrt (Rabs (x - 1)))%R.
    split; [by apply Mix_get_signal_element|].
    destruct (sqrt_Rabs_sqr x) as [Hp1 Hq1].
    destruct (sqrt_Rabs_sqr (x - 1)) as [Hp2 Hq2].
    split_and!.
    + done.
    + done.
    + lra.
    + replace (1 - (1 - sqrt (Rabs (x - 1))))%R with (sqrt (Rabs (x - 1))) by lra.
      done.
    + intros Hneg. split.
      * by rewrite Rabs_left by done.
      * rewrite Rabs_left by lra. do 2 f_equal. lra.
    + intros Hbig. split.
      * by rewrite Rabs_pos_eq by lra.
      * by rewrite Rabs_pos_eq by lra.
  - assert (well_shaped (full (shape mix_level) 0)) as Hwz
      by apply full_well_shaped.
    assert (well_shaped (tmap Rabs mix_level)) as Hwa by (by apply tmap_well_shaped).
    rewrite (Mix_get_signal_same_shape signal_one _ (tmap Rabs mix_level))
      by done.
    rewrite (Mix_get_signal_same_shape signal_one _ mix_level) by done.
    cbn [shape tmap]. f_equal.
    unfold full. cbn [data].
    unfold well_shaped in *. rewrite Hs1 in Hw1.
    assert (∀ m : tensor, length (data m) = numel (shape mix_level) →
              length (zip_with Rmult (data (Mix.mix_level_one m)) (data signal_one))
              = numel (shape mix_level)) as Hlen1.
    { intros m Hm. unfold Mix.mix_level_one, tmap. cbn [data].
      rewrite length_zip_with, !length_fmap. lia. }
    assert (∀ m : tensor, length (data m) = numel (shape mix_level) →
              length (data (Mix.mix_level_two m)) = numel (shape mix_level)) as Hlen2.
    { intros m Hm. unfold Mix.mix_level_two, tmap. cbn [data].
      by rewrite !length_fmap. }
    rewrite !silent_second_signal; try (apply Hlen1 || apply Hlen2); try done.
    unfold Mix.mix_level_one, tmap. cbn [data].
    rewrite <- !list_fmap_compose. f_equal.
    apply (f_equal (λ ws, zip_with Rmult ws (data signal_one))).
    apply list_fmap_ext. intros _ x _. simpl.
    by rewrite Rabs_Rabsolu.
Qed.

Lemma Mix_get_signal_total_in_mix_level_witness :
  (∃ out : tensor,
     Mix.get_signal (Mix.controls Sample.signal_one Sample.signal_two Sample.level)
     = Ok out ∧
     shape out = shape Sample.level ∧ well_shaped out ∧
     ∀ (i : nat) (x a b : R),
       data Sample.level !! i = Some x →
       data Sample.signal_one !! i = Some a →
       data Sample.signal_two !! i = Some b →
       ∃ w1 w2 : R,
         data out !! i = Some (w1 * a + w2 * b)%R ∧
         (0 <= w1 ∧ w1 * w1 = Rabs x)%R ∧
         (w2 <= 1 ∧ (1 - w2) * (1 - w2) = Rabs (x - 1))%R ∧
         (x < 0 → w1 = sqrt (- x) ∧ w2 = 1 - sqrt (1 + - x))%R ∧
         (1 < x → w1 = sqrt x ∧ w2 = 1 - sqrt (x - 1))%R) ∧
  Mix.get_signal
    (Mix.controls Sample.signal_one (full (shape Sample.level) 0)
       (tmap Rabs Sample.level)) =
  Mix.get_signal
    (Mix.controls Sample.signal_one (full (shape Sample.level) 0) Sample.level).
Proof.
  apply (Mix_get_signal_total_in_mix_level
           Sample.signal_one Sample.signal_two Sample.level);
    reflexivity.
Defined.

(** * Further properties of the module *)

(** ** The output of a group *)

(** X1. The value a group returns is what its last processor's own [call]
    gives on the tensors its keys resolve to, once the nodes before have
    run: the signal as a tensor, or the exception that [call] raises. *)
Theorem call_returns_last_processor_call (pre : DAG) (p : Processor.t)
    (keys : list string) (name : string) (l : loc) (h h1 : heap) (ns : dict)
    (inputs : list tensor) :
  h !! l = Some ns →
  for_each (ProcessorGroup.run_node l) pre h = (Ok (), h1) →
  Forall2 (λ key t, resolves h1 (Ref l) (core.split "/" key) (Tensor t)) keys inputs →
  (ProcessorGroup.call (ProcessorGroup.__init__ (pre ++ [(p, keys)]) name) l h).1 =
  match Processor.call p inputs with
  | Ok signal => Ok (Tensor signal)
  | Raise e => Raise e
  end.
Proof.
  intros Hl Hpre Hkeys.
  destruct (for_each_Ok_runs _ _ _ _ _ Hl Hpre) as [ss Hruns].
  destruct (dag_runs_namespace _ _ _ _ _ _ Hl Hruns) as [d1 Hl1].
  pose proof (run_node_resolved l p keys h1 d1 inputs Hl1 Hkeys) as Hnode.
  unfold Processor.call.
  destruct (Processor.get_controls p inputs) as [controls|e] eqn:Hc; simpl.
  2: { destruct (get_controls_node_raises pre [] _ name _ _ _ _ _ Hpre Hnode)
         as [_ ->]. done. }
  destruct (Processor.get_signal p controls) as [signal|e] eqn:Hs; simpl.
  2: { destruct (get_controls_node_raises pre [] _ name _ _ _ _ _ Hpre Hnode)
         as [_ ->]. done. }
  assert (dag_runs l (pre ++ [(p, keys)]) h (ss ++ [signal])
            (<[l := <[Processor.name p := Ref (S (length h1))]> d1]>
               (h1 ++ [Tensor <$> controls;
                       {[ "controls" := Ref (length h1); "signal" := Tensor signal ]}])%list))
    as Hall.
  { eapply dag_runs_app; [done|]. econstructor; [|constructor].
    by apply node_runs_intro with (inputs := inputs). }
  destruct (get_controls_of_run _ name _ _ _ _ _ signal Hl Hall) as (ns2 & Hl2 & Hgc).
  { apply last_snoc. }
  unfold ProcessorGroup.call. rewrite bind_unfold, Hgc, bind_unfold.
  by rewrite (get_signal_after (ProcessorGroup.__init__ (pre ++ [(p, keys)]) name)
                _ _ _ _ Hl2).
Qed.

Lemma call_returns_last_processor_call_witness :
  (ProcessorGroup.call
     (ProcessorGroup.__init__ ([Sample.first_node] ++ [Fixture.chained_node])
        "processor_group")
     0 Sample.store).1 =
  match Processor.call (Add.__init__ "sum") [Sample.sum; Fixture.x] with
  | Ok signal => Ok (Tensor signal)
  | Raise e => Raise e
  end.
Proof.
  apply (call_returns_last_processor_call
           [Sample.first_node] (Add.__init__ "sum") ["add/signal"; "x"]
           "processor_group" 0 Sample.store Fixture.after_add Sample.inputs).
  - reflexivity.
  - vm_compute. reflexivity.
  - repeat constructor; apply descend_Ok; vm_compute; reflexivity.
Defined.

(** X2. [get_controls] is not undone when a node fails.  When the nodes
    before a node have run and its processor's [call] raises on the tensors
    its keys resolve to, [get_controls] raises the same exception, and the
    caller's dictionary is left as those earlier nodes made it: the keys it
    had and their names, each with its entry; the failing node, the nodes
    after it and the group have added nothing. *)
Theorem failing_node_keeps_earlier_entries (pre post : DAG) (p : Processor.t)
    (keys : list string) (name : string) (l : loc) (h h1 : heap) (ns : dict)
    (inputs : list tensor) (e : exn) :
  h !! l = Some ns →
  for_each (ProcessorGroup.run_node l) pre h = (Ok (), h1) →
  Forall2 (λ key t, resolves h1 (Ref l) (core.split "/" key) (Tensor t)) keys inputs →
  Processor.call p inputs = Raise e →
  ∃ (h2 : heap) (ns1 : dict),
    ProcessorGroup.get_controls
      (ProcessorGroup.__init__ (pre ++ (p, keys) :: post) name) l h = (Raise e, h2) ∧
    h2 !! l = Some ns1 ∧
    dom ns1 = dom ns ∪ list_to_set (names pre) ∧
    (∀ k, k ∉ names pre → ns1 !! k = ns !! k) ∧
    (∀ k, k ∈ names pre → ∃ s, node_entry h2 l ns1 k s).
Proof.
  intros Hl Hpre Hkeys Hcall.
  destruct (for_each_Ok_facts _ _ _ _ _ Hl Hpre)
    as (d1 & Hl1 & _ & _ & Hdom & Hkeep & Hent).
  pose proof (lookup_lt_Some _ _ _ Hl1) as Hlt.
  pose proof (run_node_resolved l p keys h1 d1 inputs Hl1 Hkeys) as Hnode.
  unfold Processor.call in Hcall.
  destruct (Processor.get_controls p inputs) as [controls|e1]; simpl in Hcall.
  - destruct (Processor.get_signal p controls) as [signal|e2]; simpl in Hcall; [done|].
    injection Hcall as ->.
    destruct (get_controls_node_raises pre post _ name _ _ _ _ _ Hpre Hnode) as [Hgc _].
    exists (h1 ++ [Tensor <$> controls])%list, d1.
    split_and!; [done| |done|done|].
    + by rewrite lookup_app_l.
    + intros k Hk. destruct (Hent k Hk) as (s & e0 & c0 & Hk0 & Hne & He0).
      exists s, e0, c0. split_and!; [done..|].
      rewrite lookup_app_l; [done|]. by eapply lookup_lt_Some.
  - injection Hcall as ->.
    destruct (get_controls_node_raises pre post _ name _ _ _ _ _ Hpre Hnode) as [Hgc _].
    by exists h1, d1.
Qed.

Lemma failing_node_keeps_earlier_entries_witness :
  ∃ (h2 : heap) (ns1 : dict),
    ProcessorGroup.get_controls
      (ProcessorGroup.__init__
         ([Sample.first_node] ++ Fixture.base_node :: [Fixture.chained_node])
         "processor_group")
      0 Sample.store = (Raise NotImplementedError, h2) ∧
    h2 !! 0%nat = Some ns1 ∧
    dom ns1 = dom Sample.inputs ∪ list_to_set (names [Sample.first_node]) ∧
    (∀ k, k ∉ names [Sample.first_node] → ns1 !! k = Sample.inputs !! k) ∧
    (∀ k, k ∈ names [Sample.first_node] → ∃ s, node_entry h2 0 ns1 k s).
Proof.
  apply (failing_node_keeps_earlier_entries
           [Sample.first_node] [Fixture.chained_node] (Processor.__init__ "base")
           ["x"] "processor_group" 0 Sample.store Fixture.after_add Sample.inputs
           [Fixture.x] NotImplementedError).
  - reflexivity.
  - vm_compute. reflexivity.
  - repeat constructor; apply descend_Ok; vm_compute; reflexivity.
  - reflexivity.
Defined.

(** X3. A processor of the base class cannot stand in a DAG: when the nodes
    before it have run and its keys resolve to tensors, whatever they are,
    [get_controls] and the invocation of the group raise
    NotImplementedError, in the store as the earlier nodes left it. *)
Theorem base_processor_in_dag_raises (pre post : DAG)
    (keys : list string) (pname name : string) (l : loc) (h h1 : heap) (ns : dict)
    (inputs : list tensor) :
  h !! l = Some ns →
  for_each (ProcessorGroup.run_node l) pre h = (Ok (), h1) →
  Forall2 (λ key t, resolves h1 (Ref l) (core.split "/" key) (Tensor t)) keys inputs →
  let g := ProcessorGroup.__init__
             (pre ++ (Processor.__init__ pname, keys) :: post) name in
  ProcessorGroup.get_controls g l h = (Raise NotImplementedError, h1) ∧
  ProcessorGroup.call g l h = (Raise NotImplementedError, h1).
Proof.
  intros Hl Hpre Hkeys.
  destruct (for_each_Ok_facts _ _ _ _ _ Hl Hpre) as (d1 & Hl1 & _).
  intros g. apply (get_controls_node_raises pre post _ name l h h1 h1); [done|].
  by rewrite (run_node_resolved _ _ _ _ _ _ Hl1 Hkeys).
Qed.

Lemma base_processor_in_dag_raises_witness :
  let g := ProcessorGroup.__init__
             ([Sample.first_node] ++ (Processor.__init__ "base", ["x"]) :: [])
             "processor_group" in
  ProcessorGroup.get_controls g 0 Sample.store
  = (Raise NotImplementedError, Fixture.after_add) ∧
  ProcessorGroup.call g 0 Sample.store
  = (Raise NotImplementedError, Fixture.after_add).
Proof.
  apply (base_processor_in_dag_raises
           [Sample.first_node] [] ["x"] "base" "processor_group" 0 Sample.store
           Fixture.after_add Sample.inputs [Fixture.x]).
  - reflexivity.
  - vm_compute. reflexivity.
  - repeat constructor; apply descend_Ok; vm_compute; reflexivity.
Defined.

(** X5. [get_signal] needs [get_controls] to have run.  On a namespace
    without the group's name it raises KeyError and leaves the store alone;
    on the namespace a run of [get_controls] has returned it gives a
    tensor, again without touching the store. *)
Theorem get_signal_before_and_after_get_controls (d : DAG) (name : string)
    (l out : loc) (h h' : heap) (ns : dict) :
  h !! l = Some ns →
  ns !! name = None →
  ProcessorGroup.get_controls (ProcessorGroup.__init__ d name) l h = (Ok out, h') →
  ProcessorGroup.get_signal (ProcessorGroup.__init__ d name) l h = (Raise KeyError, h) ∧
  ∃ s : tensor,
    ProcessorGroup.get_signal (ProcessorGroup.__init__ d name) out h' = (Ok (Tensor s), h').
Proof.
  intros Hl Hname H. split.
  - unfold ProcessorGroup.get_signal. rewrite bind_unfold. unfold getitem at 1.
    simpl. by rewrite Hl, Hname.
  - destruct (get_controls_Ok _ _ _ _ _ _ _ Hl H)
      as (-> & h1 & d1 & s & _ & _ & _ & _ & _ & _ & Hl' & Hg & _).
    exists s. unfold ProcessorGroup.get_signal. rewrite bind_unfold.
    unfold getitem at 1. simpl. rewrite Hl', lookup_insert_eq.
    unfold getitem. by rewrite Hg, lookup_singleton_eq.
Qed.

Lemma get_signal_before_and_after_get_controls_witness :
  let g := ProcessorGroup.__init__ [Sample.first_node] "processor_group" in
  ProcessorGroup.get_signal g 0 Sample.store = (Raise KeyError, Sample.store) ∧
  ∃ s : tensor,
    ProcessorGroup.get_signal g 0 (ProcessorGroup.get_controls g 0 Sample.store).2
    = (Ok (Tensor s), (ProcessorGroup.get_controls g 0 Sample.store).2).
Proof.
  apply (get_signal_before_and_after_get_controls
           [Sample.first_node] "processor_group" 0 0 Sample.store _ Sample.inputs).
  - reflexivity.
  - reflexivity.
  - vm_compute. reflexivity.
Defined.

(** X6. The top-level keys of the namespace [get_controls] returns are the
    keys the input had, the names of the processors, and the name of the
    group: no other key is added and none is removed. *)
Theorem get_controls_top_level_keys (d : DAG) (name : string)
    (l out : loc) (h h' : heap) (ns : dict) :
  h !! l = Some ns →
  ProcessorGroup.get_controls (ProcessorGroup.__init__ d name) l h = (Ok out, h') →
  ∃ ns' : dict,
    h' !! out = Some ns' ∧
    dom ns' = dom ns ∪ list_to_set (names d) ∪ {[ name ]}.
Proof.
  intros Hl H.
  destruct (get_controls_Ok _ _ _ _ _ _ _ Hl H)
    as (-> & h1 & d1 & s & _ & _ & _ & Hdom & _ & _ & Hl' & _).
  eexists. split; [exact Hl'|].
  rewrite dom_insert_L, Hdom. set_solver.
Qed.

Lemma get_controls_top_level_keys_witness :
  ∃ ns' : dict,
    (ProcessorGroup.get_controls Sample.add_group 0 Sample.store).2 !! 0%nat = Some ns' ∧
    dom ns' = dom Sample.inputs ∪ list_to_set (names [Sample.first_node])
              ∪ {[ "processor_group" ]}.
Proof.
  apply (get_controls_top_level_keys
           [Sample.first_node] "processor_group" 0 0 Sample.store _ Sample.inputs).
  - reflexivity.
  - vm_compute. reflexivity.
Defined.

(** X7. The entry under a processor's name is that of the last node that
    bears the name.  When a node has run, no node after it has its
    processor's name, and the name is not the group's, the namespace
    [get_controls] returns holds under that name the entry with the signal
    this node's processor computed; so an earlier node of the same name has
    left nothing under it. *)
Theorem entry_is_of_last_node_of_name (pre post : DAG) (p : Processor.t)
    (keys : list string) (name : string) (l out : loc) (h h1 h' : heap)
    (ns : dict) (inputs : list tensor) (s : tensor) :
  h !! l = Some ns →
  for_each (ProcessorGroup.run_node l) pre h = (Ok (), h1) →
  Forall2 (λ key t, resolves h1 (Ref l) (core.split "/" key) (Tensor t)) keys inputs →
  Processor.call p inputs = Ok s →
  Processor.name p ∉ names post →
  Processor.name p ≠ name →
  ProcessorGroup.get_controls
    (ProcessorGroup.__init__ (pre ++ (p, keys) :: post) name) l h = (Ok out, h') →
  ∃ ns' : dict,
    h' !! out = Some ns' ∧ node_entry h' l ns' (Processor.name p) s.
Proof.
  intros Hl Hpre Hkeys Hcall Hpost Hname H.
  rewrite (get_controls_Spec _ _ _ _ _ Hl) in H.
  apply (Spec_get_controls_Ok _ _ _ _ _ _ _ Hl) in H
    as (-> & hL & dL & s' & Hnodes & HlL & ->).
  rewrite Spec_nodes_app in Hnodes.
  apply bind_Ok_inv in Hnodes as (r0 & h1' & Hnpre & Hnodes).
  assert (h1' = h1) as ->.
  { rewrite (for_each_Spec_nodes l pre None), bind_unfold, Hnpre in Hpre.
    by injection Hpre. }
  destruct (Spec_nodes_Ok _ _ _ _ _ _ _ Hl Hnpre) as (d1 & Hl1 & _).
  cbn [Spec.nodes] in Hnodes.
  apply bind_Ok_inv in Hnodes as (s1 & h2 & Hnode & Hnpost).
  unfold Processor.call in Hcall.
  destruct (Processor.get_controls p inputs) as [controls|] eqn:Hc; [|done].
  simpl in Hcall.
  destruct (Processor.get_signal p controls) as [signal|] eqn:Hs; [|done].
  injection Hcall as ->.
  pose proof (node_runs_Spec _ _ _ _ _
                (node_runs_intro l p keys h1 d1 inputs controls s Hl1 Hkeys Hc Hs))
    as Hnode'.
  rewrite Hnode' in Hnode. injection Hnode as <- <-.
  destruct (node_store l (Processor.name p) h1 d1 (Tensor <$> controls)
              {[ "controls" := Ref (length h1); "signal" := Tensor s ]} Hl1)
    as (Hl2 & He & Hne & Hlen2 & _).
  destruct (Spec_nodes_Ok _ _ _ _ _ _ _ Hl2 Hnpost)
    as (dL' & HlL' & HlenL & Hframe & _ & Hkeep & _).
  assert (dL' = dL) as -> by (by simplify_eq).
  pose proof (lookup_lt_Some _ _ _ HlL) as Hlt.
  eexists. split.
  { apply list_lookup_insert_eq. rewrite length_app. simpl. lia. }
  exists (S (length h1)), (length h1). split_and!.
  - rewrite lookup_insert_ne by done. rewrite Hkeep by done.
    by rewrite lookup_insert_eq.
  - done.
  - rewrite list_lookup_insert_ne by done.
    rewrite lookup_app_l by lia.
    rewrite Hframe by (done || lia). done.
Qed.

Lemma entry_is_of_last_node_of_name_witness :
  ∃ ns' : dict,
    (ProcessorGroup.get_controls
       (ProcessorGroup.__init__ ([Sample.first_node] ++ Fixture.second_add :: [])
          "processor_group")
       0 Sample.store).2 !! 0%nat = Some ns' ∧
    node_entry
      (ProcessorGroup.get_controls
         (ProcessorGroup.__init__ ([Sample.first_node] ++ Fixture.second_add :: [])
            "processor_group")
         0 Sample.store).2
      0 ns' "add" Fixture.double.
Proof.
  apply (entry_is_of_last_node_of_name
           [Sample.first_node] [] (Add.__init__ "add") ["x"; "x"]
           "processor_group" 0 0 Sample.store Fixture.after_add _ Sample.inputs
           [Fixture.x; Fixture.x] Fixture.double).
  - reflexivity.
  - vm_compute. reflexivity.
  - repeat constructor; apply descend_Ok; vm_compute; reflexivity.
  - vm_compute. reflexivity.
  - apply (bool_decide_unpack _). vm_compute. exact I.
  - discriminate.
  - vm_compute. reflexivity.
Defined.

(** ** What a node records is what a later node looks up *)

Lemma split_not_nil (sep : ascii) (s : string) : core.split sep s ≠ [].
Proof.
  destruct s as [|c s]; simpl; [done|].
  destruct (Ascii.eqb c sep); [done|]. by destruct (core.split sep s).
Qed.

Lemma segment_tail (c : ascii) (s : string) :
  segment (String c s) → Ascii.eqb c "/" = false ∧ segment s.
Proof.
  unfold segment. simpl. destruct (Ascii.eqb c "/") eqn:Hc.
  - intros H. discriminate H.
  - destruct (core.split "/" s) as [|seg segs] eqn:E.
    + intros H. injection H as H. by subst.
    + intros H. injection H as H1 H2. by subst.
Qed.

(** The path of a segment and a rest, joined by a slash. *)
Lemma split_segment_rest (a b : string) :
  segment a →
  core.split "/" (a +:+ String "/" b) = a :: core.split "/" b.
Proof.
  induction a as [|c a IH]; intros Ha; [done|].
  apply segment_tail in Ha as [Hc Ha]. simpl. rewrite Hc.
  change (String.append a (String "/" b)) with (a +:+ String "/" b).
  by rewrite (IH Ha).
Qed.

(** X8. What a node records, a later node finds by its key path.  After the
    loop body has run for a processor whose name is one path segment, the
    key "<name>/signal" looks up the signal the processor computed, and
    "<name>/controls/<key>" looks up the control tensor under every key that
    is one segment, in the namespace the loop works on. *)
Theorem recorded_outputs_are_looked_up (l : loc) (p : Processor.t)
    (keys : list string) (h : heap) (d : dict) (inputs : list tensor)
    (controls : gmap string tensor) (signal : tensor) :
  h !! l = Some d →
  Forall2 (λ key t, resolves h (Ref l) (core.split "/" key) (Tensor t)) keys inputs →
  Processor.get_controls p inputs = Ok controls →
  Processor.get_signal p controls = Ok signal →
  segment (Processor.name p) →
  ∃ h' : heap,
    ProcessorGroup.run_node l (p, keys) h = (Ok (), h') ∧
    core.nested_lookup (Processor.name p +:+ "/signal") l h' = (Ok (Tensor signal), h') ∧
    ∀ (k : string) (t : tensor),
      segment k →
      controls !! k = Some t →
      core.nested_lookup (Processor.name p +:+ "/controls/" +:+ k) l h'
      = (Ok (Tensor t), h').
Proof.
  intros Hl Hkeys Hc Hs Hseg.
  pose proof (run_node_resolved l p keys h d inputs Hl Hkeys) as Hnode.
  rewrite Hc, Hs in Hnode.
  destruct (node_store l (Processor.name p) h d (Tensor <$> controls)
              {[ "controls" := Ref (length h); "signal" := Tensor signal ]} Hl)
    as (Hl' & He & Hne & _ & _).
  pose proof (lookup_lt_Some _ _ _ Hl) as Hlt.
  eexists. split; [exact Hnode|].
  match goal with |- context [core.nested_lookup _ l ?st] => set (h' := st) in * end.
  assert (h' !! length h = Some (Tensor <$> controls)) as Hcobj.
  { subst h'. rewrite list_lookup_insert_ne by lia.
    rewrite lookup_app_r by lia. by rewrite Nat.sub_diag. }
  split.
  - unfold core.nested_lookup. f_equal.
    change (Processor.name p +:+ "/signal")
      with (Processor.name p +:+ String "/" "signal").
    rewrite (split_segment_rest _ _ Hseg).
    change (core.split "/" "signal") with ["signal"].
    cbn [core.descend]. rewrite Hl'. simpl. rewrite lookup_insert_eq.
    rewrite He. simpl. rewrite lookup_insert_ne by done.
    by rewrite lookup_singleton_eq.
  - intros k t Hk Ht. unfold core.nested_lookup. f_equal.
    change (Processor.name p +:+ "/controls/" +:+ k)
      with (Processor.name p +:+ String "/" ("controls" +:+ String "/" k)).
    rewrite (split_segment_rest _ _ Hseg).
    rewrite (split_segment_rest "controls" k) by reflexivity.
    rewrite Hk.
    cbn [core.descend]. rewrite Hl'. simpl. rewrite lookup_insert_eq.
    rewrite He. simpl. rewrite lookup_insert_eq.
    rewrite Hcobj. simpl. by rewrite lookup_fmap, Ht.
Qed.

Lemma recorded_outputs_are_looked_up_witness :
  ∃ h' : heap,
    ProcessorGroup.run_node 0 (Add.__init__ "add", ["x"; "y"]) Sample.store = (Ok (), h') ∧
    core.nested_lookup ("add" +:+ "/signal") 0 h' = (Ok (Tensor Sample.sum), h') ∧
    ∀ (k : string) (t : tensor),
      segment k →
      Sample.add_controls !! k = Some t →
      core.nested_lookup ("add" +:+ "/controls/" +:+ k) 0 h' = (Ok (Tensor t), h').
Proof.
  apply (recorded_outputs_are_looked_up
           0 (Add.__init__ "add") ["x"; "y"] Sample.store Sample.inputs
           [Fixture.x; Fixture.y] Sample.add_controls Sample.sum).
  - reflexivity.
  - repeat constructor; apply descend_Ok; vm_compute; reflexivity.
  - reflexivity.
  - vm_compute. reflexivity.
  - reflexivity.
Defined.

(** ** Add *)

Lemma broadcast_dim_comm (x y : nat) : broadcast_dim x y = broadcast_dim y x.
Proof.
  unfold broadcast_dim.
  destruct (Nat.eqb_spec x y) as [->|Hxy].
  - by rewrite Nat.eqb_refl.
  - destruct (Nat.eqb_spec y x) as [->|_]; [done|].
    destruct (Nat.eqb_spec x 1) as [->|Hx]; destruct (Nat.eqb_spec y 1) as [->|Hy];
      done.
Qed.

Lemma broadcast_rev_comm (a b : list nat) : broadcast_rev a b = broadcast_rev b a.
Proof.
  revert b. induction a as [|x a IH]; intros [|y b]; simpl; try done.
  by rewrite broadcast_dim_comm, IH.
Qed.

Lemma broadcast_shape_comm (s1 s2 : list nat) :
  broadcast_shape s1 s2 = broadcast_shape s2 s1.
Proof. unfold broadcast_shape. by rewrite broadcast_rev_comm. Qed.

Lemma zip_with_comm (f : R → R → R) (xs ys : list R) :
  (∀ x y, f x y = f y x) → zip_with f xs ys = zip_with f ys xs.
Proof.
  intros Hf. revert ys. induction xs as [|x xs IH]; intros [|y ys]; simpl; try done.
  by rewrite Hf, IH.
Qed.

Lemma tzip_comm (f : R → R → R) (a b : tensor) :
  (∀ x y, f x y = f y x) → tzip f a b = tzip f b a.
Proof.
  intros Hf. unfold tzip. rewrite (broadcast_shape_comm (shape b)).
  destruct (broadcast_shape (shape a) (shape b)) as [s|]; [|done].
  by rewrite (zip_with_comm f _ _ Hf).
Qed.

Lemma Add_keywords (signal_one signal_two : tensor) :
  bind_keywords ["signal_one"; "signal_two"]
    {[ "signal_one" := signal_one; "signal_two" := signal_two ]}
  = Ok [signal_one; signal_two].
Proof. reflexivity. Qed.

(** The controls of [Add] are the keywords of its [get_signal]. *)
Lemma Add_call (name : string) (signal_one signal_two : tensor) :
  Processor.call (Add.__init__ name) [signal_one; signal_two] =
  tadd signal_one signal_two.
Proof.
  unfold Processor.call. simpl. unfold Add.get_signal.
  rewrite Add_keywords. simpl. by destruct (tadd signal_one signal_two).
Qed.

(** X9. [Add], called on two signals of one shape, returns the tensor of
    that shape whose elements are the sums of theirs; called on anything
    but two tensors it raises TypeError. *)
Theorem Add_call_is_elementwise_sum (name : string) (signal_one signal_two : tensor) :
  shape signal_two = shape signal_one →
  well_shaped signal_one → well_shaped signal_two →
  Processor.call (Add.__init__ name) [signal_one; signal_two] =
  Ok {| shape := shape signal_one;
        data := zip_with Rplus (data signal_one) (data signal_two) |} ∧
  well_shaped {| shape := shape signal_one;
                 data := zip_with Rplus (data signal_one) (data signal_two) |} ∧
  ∀ args : list tensor,
    length args ≠ 2%nat →
    Processor.call (Add.__init__ name) args = Raise TypeError.
Proof.
  intros Hs H1 H2. split_and!.
  - rewrite Add_call. unfold tadd. by apply tzip_same_shape.
  - by apply tzip_well_shaped.
  - intros args Hargs. by destruct args as [|a [|b [|c args]]].
Qed.

Lemma Add_call_is_elementwise_sum_witness :
  Processor.call (Add.__init__ "add") [Fixture.x; Fixture.y] =
  Ok {| shape := shape Fixture.x;
        data := zip_with Rplus (data Fixture.x) (data Fixture.y) |} ∧
  well_shaped {| shape := shape Fixture.x;
                 data := zip_with Rplus (data Fixture.x) (data Fixture.y) |} ∧
  ∀ args : list tensor,
    length args ≠ 2%nat →
    Processor.call (Add.__init__ "add") args = Raise TypeError.
Proof.
  apply (Add_call_is_elementwise_sum "add" Fixture.x Fixture.y); reflexivity.
Defined.

(** X10. [Add] does not depend on the order of its two signals, whatever
    their shapes: the sum is the same, and so is the refusal of shapes that
    cannot be broadcast together. *)
Theorem Add_call_commutes (name : string) (signal_one signal_two : tensor) :
  Processor.call (Add.__init__ name) [signal_one; signal_two] =
  Processor.call (Add.__init__ name) [signal_two; signal_one].
Proof.
  rewrite !Add_call. unfold tadd. apply tzip_comm. intros x y. lra.
Qed.

(** ** Mix: the level and the two weights *)

Lemma sigmoid_range (x : R) : (0 < Mix.sigmoid x < 1)%R.
Proof.
  unfold Mix.sigmoid. pose proof (exp_pos (- x)) as He. split.
  - apply Rdiv_lt_0_compat; lra.
  - apply (Rmult_lt_reg_r (1 + exp (- x))); [lra|].
    unfold Rdiv. rewrite Rmult_assoc, Rinv_l by lra. lra.
Qed.

(** X11. The controls of [Mix] are its two signals as they came and a level
    within the range from 0 to 1 that the docstring names: every element of
    the level lies in [[0, 1]] whenever the resampling keeps values that do,
    as an interpolation does.  The ends are included: rounded to a float,
    the sigmoid of a large argument is 1 and that of a very negative one
    is 0. *)
Theorem Mix_get_controls_level_in_range
    (resample : tensor → nat → result tensor)
    (signal_one signal_two nn_out_mix_level : tensor)
    (controls : gmap string tensor) :
  (∀ (t r : tensor) (n : nat),
     resample t n = Ok r →
     Forall (λ x, 0 <= x <= 1)%R (data t) → Forall (λ x, 0 <= x <= 1)%R (data r)) →
  Mix.get_controls resample [signal_one; signal_two; nn_out_mix_level] = Ok controls →
  controls !! "signal_one" = Some signal_one ∧
  controls !! "signal_two" = Some signal_two ∧
  ∃ mix_level : tensor,
    controls !! "mix_level" = Some mix_level ∧
    Forall (λ x, 0 <= x <= 1)%R (data mix_level).
Proof.
  intros Hres H. unfold Mix.get_controls in H.
  destruct (shape_at signal_one 1) as [n1|]; simpl in H; [|done].
  destruct (shape_at signal_two 1) as [n2|]; simpl in H; [|done].
  destruct (decide (n1 ≠ n2)); [done|].
  destruct (resample (tmap Mix.sigmoid nn_out_mix_level) n1) as [m|] eqn:Hm;
    simpl in H; [|done].
  injection H as <-. split_and!; [done..|].
  exists m. split; [done|].
  apply (Hres _ _ _ Hm). unfold tmap. cbn [data].
  apply Forall_fmap, Forall_true. intros x. simpl.
  pose proof (sigmoid_range x). lra.
Qed.

Lemma Mix_get_controls_level_in_range_witness :
  Mix.controls Sample.signal_one Sample.signal_two (tmap Mix.sigmoid Sample.level)
    !! "signal_one" = Some Sample.signal_one ∧
  Mix.controls Sample.signal_one Sample.signal_two (tmap Mix.sigmoid Sample.level)
    !! "signal_two" = Some Sample.signal_two ∧
  ∃ mix_level : tensor,
    Mix.controls Sample.signal_one Sample.signal_two (tmap Mix.sigmoid Sample.level)
      !! "mix_level" = Some mix_level ∧
    Forall (λ x, 0 <= x <= 1)%R (data mix_level).
Proof.
  apply (Mix_get_controls_level_in_range Sample.resample_same
           Sample.signal_one Sample.signal_two Sample.level).
  - intros t r n [= <-] Ht. exact Ht.
  - reflexivity.
Defined.

(** The two weights at one level within [[0, 1]]. *)
Lemma weight_one_at (x : R) :
  (0 <= x <= 1)%R → (sqrt (Rabs x) = sqrt x ∧ 0 <= sqrt x <= 1)%R.
Proof.
  intros Hx. rewrite Rabs_pos_eq by lra. split; [done|]. split.
  - apply sqrt_pos.
  - apply Rle_trans with (sqrt 1); [apply sqrt_le_1_alt; lra|].
    rewrite sqrt_1. lra.
Qed.

Lemma weight_two_at (x : R) :
  (0 <= x <= 1)%R →
  (1 - sqrt (Rabs (x - 1)) = 1 - sqrt (1 - x) ∧ 0 <= sqrt (1 - x) <= 1)%R.
Proof.
  intros Hx. replace (x - 1)%R with (- (1 - x))%R by lra.
  rewrite Rabs_Ropp, Rabs_pos_eq by lra. split; [done|]. split.
  - apply sqrt_pos.
  - apply Rle_trans with (sqrt 1); [apply sqrt_le_1_alt; lra|].
    rewrite sqrt_1. lra.
Qed.

Lemma mix_level_one_lookup (m : tensor) (i : nat) :
  data (Mix.mix_level_one m) !! i = (λ x, sqrt (Rabs x)) <$> data m !! i.
Proof.
  unfold Mix.mix_level_one, tmap. cbn [data].
  rewrite !list_lookup_fmap. by destruct (data m !! i).
Qed.

Lemma mix_level_two_lookup (m : tensor) (i : nat) :
  data (Mix.mix_level_two m) !! i
  = (λ x, 1 - sqrt (Rabs (x - 1)))%R <$> data m !! i.
Proof.
  unfold Mix.mix_level_two, tmap. cbn [data].
  rewrite !list_lookup_fmap. by destruct (data m !! i).
Qed.

(** X12. With a level within [[0, 1]] everywhere, both weights of
    [Mix.get_signal] lie within [[0, 1]], and no element of the mix is
    larger in magnitude than the magnitudes of the two signals' elements
    added together. *)
Theorem Mix_get_signal_is_bounded (signal_one signal_two mix_level : tensor) :
  shape signal_one = shape mix_level →
  shape signal_two = shape mix_level →
  well_shaped signal_one → well_shaped signal_two → well_shaped mix_level →
  Forall (λ x, 0 <= x <= 1)%R (data mix_level) →
  Forall (λ w, 0 <= w <= 1)%R (data (Mix.mix_level_one mix_level)) ∧
  Forall (λ w, 0 <= w <= 1)%R (data (Mix.mix_level_two mix_level)) ∧
  ∃ out : tensor,
    Mix.get_signal (Mix.controls signal_one signal_two mix_level) = Ok out ∧
    ∀ (i : nat) (a b o : R),
      data signal_one !! i = Some a →
      data signal_two !! i = Some b →
      data out !! i = Some o →
      (Rabs o <= Rabs a + Rabs b)%R.
Proof.
  intros Hs1 Hs2 Hw1 Hw2 Hwm Hlevel. split_and!.
  - apply Forall_lookup. intros i w Hw. rewrite mix_level_one_lookup in Hw.
    destruct (data mix_level !! i) as [x|] eqn:Hx; [|done]. injection Hw as <-.
    destruct (weight_one_at x (Forall_lookup_1 _ _ _ _ Hlevel Hx)) as [-> ?]. done.
  - apply Forall_lookup. intros i w Hw. rewrite mix_level_two_lookup in Hw.
    destruct (data mix_level !! i) as [x|] eqn:Hx; [|done]. injection Hw as <-.
    destruct (weight_two_at x (Forall_lookup_1 _ _ _ _ Hlevel Hx)) as [-> ?]. lra.
  - eexists. split; [by apply Mix_get_signal_same_shape|]. cbn [data].
    intros i a b o Ha Hb Ho.
    assert (length (data signal_one) = length (data mix_level)) as Hlen
      by (unfold well_shaped in *; congruence).
    destruct (lookup_lt_is_Some_2 (data mix_level) i) as [x Hx].
    { rewrite <- Hlen. by eapply lookup_lt_Some. }
    rewrite (Mix_get_signal_element _ _ _ _ _ _ _ Hx Ha Hb) in Ho.
    injection Ho as <-.
    pose proof (Forall_lookup_1 _ _ _ _ Hlevel Hx) as Hx01.
    destruct (weight_one_at x Hx01) as [-> H1].
    destruct (weight_two_at x Hx01) as [-> H2].
    eapply Rle_trans; [apply Rabs_triang|].
    rewrite !Rabs_mult.
    rewrite (Rabs_pos_eq (sqrt x)) by lra.
    rewrite (Rabs_pos_eq (1 - sqrt (1 - x))) by lra.
    pose proof (Rabs_pos a). pose proof (Rabs_pos b). nra.
Qed.

Lemma Mix_get_signal_is_bounded_witness :
  Forall (λ w, 0 <= w <= 1)%R (data (Mix.mix_level_one Fixture.low)) ∧
  Forall (λ w, 0 <= w <= 1)%R (data (Mix.mix_level_two Fixture.low)) ∧
  ∃ out : tensor,
    Mix.get_signal (Mix.controls Sample.signal_one Sample.signal_two Fixture.low)
    = Ok out ∧
    ∀ (i : nat) (a b o : R),
      data Sample.signal_one !! i = Some a →
      data Sample.signal_two !! i = Some b →
      data out !! i = Some o →
      (Rabs o <= Rabs a + Rabs b)%R.
Proof.
  apply (Mix_get_signal_is_bounded Sample.signal_one Sample.signal_two Fixture.low);
    try reflexivity.
  repeat constructor; simpl; lra.
Defined.

(** X13. Within [[0, 1]] neither weight of [Mix.get_signal] goes down when
    the level goes up: a higher level lowers the share of neither signal. *)
Theorem Mix_weights_do_not_decrease (mix_level mix_level' : tensor) :
  Forall2 (λ x y, 0 <= x ∧ x <= y ∧ y <= 1)%R (data mix_level) (data mix_level') →
  Forall2 Rle (data (Mix.mix_level_one mix_level))
              (data (Mix.mix_level_one mix_level')) ∧
  Forall2 Rle (data (Mix.mix_level_two mix_level))
              (data (Mix.mix_level_two mix_level')).
Proof.
  intros H. unfold Mix.mix_level_one, Mix.mix_level_two, tmap. cbn [data]. split.
  - rewrite <- !list_fmap_compose. apply Forall2_fmap.
    eapply Forall2_impl; [exact H|]. simpl. intros x y (Hx & Hxy & Hy).
    rewrite !Rabs_pos_eq by lra. apply sqrt_le_1_alt. lra.
  - rewrite <- !list_fmap_compose. apply Forall2_fmap.
    eapply Forall2_impl; [exact H|]. simpl. intros x y (Hx & Hxy & Hy).
    replace (x - 1)%R with (- (1 - x))%R by lra.
    replace (y - 1)%R with (- (1 - y))%R by lra.
    rewrite !Rabs_Ropp, !Rabs_pos_eq by lra.
    assert (sqrt (1 - y) <= sqrt (1 - x))%R by (apply sqrt_le_1_alt; lra).
    lra.
Qed.

Lemma Mix_weights_do_not_decrease_witness :
  Forall2 Rle (data (Mix.mix_level_one Fixture.low))
              (data (Mix.mix_level_one Fixture.high)) ∧
  Forall2 Rle (data (Mix.mix_level_two Fixture.low))
              (data (Mix.mix_level_two Fixture.high)).
Proof.
  apply (Mix_weights_do_not_decrease Fixture.low Fixture.high).
  repeat constructor; simpl; lra.
Defined.

(** X14. At a level [x] within [[0, 1]] the squares of the two weights of
    [Mix.get_signal] add up to [2 - 2 * sqrt (1 - x)]; the sum is 1 at the
    level 3/4 and at no other level of that range. *)
Theorem Mix_weights_power (mix_level : tensor) (i : nat) (x : R) :
  data mix_level !! i = Some x →
  (0 <= x <= 1)%R →
  ∃ w1 w2 : R,
    data (Mix.mix_level_one mix_level) !! i = Some w1 ∧
    data (Mix.mix_level_two mix_level) !! i = Some w2 ∧
    (w1 * w1 + w2 * w2 = 2 - 2 * sqrt (1 - x))%R ∧
    ((w1 * w1 + w2 * w2 = 1)%R ↔ x = (3 / 4)%R).
Proof.
  intros Hx Hx01.
  exists (sqrt (Rabs x)), (1 - sqrt (Rabs (x - 1)))%R.
  rewrite mix_level_one_lookup, mix_level_two_lookup, Hx.
  split; [done|]. split; [done|].
  destruct (weight_one_at x Hx01) as [-> H1].
  destruct (weight_two_at x Hx01) as [-> H2].
  pose proof (sqrt_sqrt x (proj1 Hx01)) as Hsq1.
  assert (sqrt (1 - x) * sqrt (1 - x) = 1 - x)%R as Hsq2
    by (apply sqrt_sqrt; lra).
  assert (sqrt x * sqrt x + (1 - sqrt (1 - x)) * (1 - sqrt (1 - x))
          = 2 - 2 * sqrt (1 - x))%R as Hsum by nra.
  split; [done|]. rewrite Hsum. split.
  - intros H. assert (sqrt (1 - x) = 1 / 2)%R as Hhalf by lra.
    rewrite Hhalf in Hsq2. lra.
  - intros ->. replace (1 - 3 / 4)%R with ((1 / 2) * (1 / 2))%R by lra.
    rewrite sqrt_square by lra. lra.
Qed.

Lemma Mix_weights_power_witness :
  ∃ w1 w2 : R,
    data (Mix.mix_level_one Fixture.low) !! 1%nat = Some w1 ∧
    data (Mix.mix_level_two Fixture.low) !! 1%nat = Some w2 ∧
    (w1 * w1 + w2 * w2 = 2 - 2 * sqrt (1 - 1 / 4))%R ∧
    ((w1 * w1 + w2 * w2 = 1)%R ↔ (1 / 4 = 3 / 4)%R).
Proof.
  apply (Mix_weights_power Fixture.low 1 (1 / 4)%R).
  - reflexivity.
  - lra.
Defined.
